(** * serializationlib: SerializationUtility and ValidationUtility

    A shallow embedding of [src/SerializationUtility.h] and
    [src/ValidationUtility.h].

    Conventions of the embedding.
    - [StdString] is [string]; a [const char*] is a [string] as well, and
      [c_str] cuts a [StdString] at its first NUL the way a C reader does.
    - Integral C++ values are [Z]; the type records signedness and width and
      [static_cast] is written out as wrap-around.
    - A thrown exception is the [Throw] case of [result].
    - A string node of a document holds a C string (no NUL inside), and a
      string handed to a document is the document's own copy.
    - [float] and [double] are left out: neither the C++ types nor JSON
      floating-point nodes are part of the model.
    - The JSON text reader and writer (ArduinoJson) sit behind the class
      [JsonLibrary]; user types with their own [Serialize]/[Deserialize]
      sit behind [CompositeCapability]. *)

From Stdlib Require Import ZArith List String Ascii Bool Lia Sorted.
Import ListNotations.

Local Open Scope string_scope.
Local Open Scope Z_scope.

(* ================================================================== *)
(** ** The C++ standard library pieces the code calls *)

Module Cxx.

Definition StdString := string.

Inductive exception : Type :=
| invalid_argument (what : string)
| out_of_range (what : string).

Inductive result (A : Type) : Type :=
| Ok (a : A)
| Throw (e : exception).

Arguments Ok {A} a.
Arguments Throw {A} e.

Definition bind {A B} (r : result A) (k : A -> result B) : result B :=
  match r with
  | Ok a => k a
  | Throw e => Throw e
  end.

Definition fmap {A B} (f : A -> B) (r : result A) : result B :=
  bind r (fun a => Ok (f a)).

Definition code (c : ascii) : Z := Z.of_N (N_of_ascii c).

Definition chr (z : Z) : ascii := ascii_of_N (Z.to_N (z mod 256)).

(** [::isspace] in the C locale: space, \t, \n, \v, \f, \r. *)
Definition isspace (c : ascii) : bool :=
  (code c =? 32) || ((9 <=? code c) && (code c <=? 13)).

Definition isdigit (c : ascii) : bool :=
  (48 <=? code c) && (code c <=? 57).

(** [::tolower] in the C locale. *)
Definition tolower (c : ascii) : ascii :=
  if (65 <=? code c) && (code c <=? 90) then chr (code c + 32) else c.

Fixpoint transform (f : ascii -> ascii) (s : string) : string :=
  match s with
  | EmptyString => EmptyString
  | String c s' => String (f c) (transform f s')
  end.

(** [s.c_str()] as a C reader sees it: the characters before the first NUL. *)
Fixpoint c_str (s : string) : string :=
  match s with
  | EmptyString => EmptyString
  | String c s' => if (code c =? 0) then EmptyString else String c (c_str s')
  end.

(** *** Decimal output: [std::to_string] and [operator<<] on integers *)

Definition digit_char (d : Z) : ascii := chr (48 + d).

Fixpoint decimal_digits (fuel : nat) (n : Z) : string :=
  match fuel with
  | O => EmptyString
  | S f =>
      (if n <? 10 then EmptyString else decimal_digits f (n / 10))
        ++ String (digit_char (n mod 10)) EmptyString
  end.

(** Decimal text of a non-negative number. *)
Definition decimal (n : Z) : string :=
  decimal_digits (S (Z.to_nat (Z.log2 n))) n.

Definition to_string (n : nat) : string := decimal (Z.of_nat n).

(** [oss << value] for short, int, long, size_t and their unsigned forms. *)
Definition ostream_int (z : Z) : string :=
  if z <? 0 then String "-" (decimal (- z)) else decimal z.

(** [oss << value] for the character types: the byte itself. *)
Definition ostream_char (z : Z) : string :=
  String (chr z) EmptyString.

(** *** Integer input: [strtoll]/[strtoull] behind [std::stoll] and friends *)

Fixpoint skip_space (s : string) : string :=
  match s with
  | String c s' => if isspace c then skip_space s' else s
  | EmptyString => s
  end.

(** The values of the longest run of decimal digits [s] starts with. *)
Fixpoint digit_run (s : string) : list Z :=
  match s with
  | String c s' => if isdigit c then (code c - 48) :: digit_run s' else []
  | EmptyString => []
  end.

Definition decimal_value (ds : list Z) : Z :=
  fold_left (fun a d => 10 * a + d) ds 0.

(** Leading white space, an optional sign, then base-10 digits.  [None]
    when there is no digit; otherwise the sign and the magnitude. *)
Definition strto (s : string) : option (bool * Z) :=
  let s1 := skip_space s in
  let '(neg, s2) :=
    match s1 with
    | String c r =>
        if Ascii.eqb c "-" then (true, r)
        else if Ascii.eqb c "+" then (false, r)
        else (false, s1)
    | EmptyString => (false, s1)
    end in
  match digit_run s2 with
  | [] => None
  | ds => Some (neg, decimal_value ds)
  end.

Definition LLONG_MAX : Z := 2 ^ 63 - 1.
Definition LLONG_MIN : Z := - 2 ^ 63.
Definition ULLONG_MAX : Z := 2 ^ 64 - 1.
Definition INT_MAX : Z := 2 ^ 31 - 1.
Definition INT_MIN : Z := - 2 ^ 31.

Definition stoll (s : string) : result Z :=
  match strto s with
  | None => Throw (invalid_argument "stoll")
  | Some (neg, m) =>
      let v := if neg then - m else m in
      if (LLONG_MIN <=? v) && (v <=? LLONG_MAX) then Ok v
      else Throw (out_of_range "stoll")
  end.

(** [strtoull] accepts a minus sign and negates in the unsigned type; only a
    magnitude above [ULLONG_MAX] is out of range. *)
Definition stoull (s : string) : result Z :=
  match strto s with
  | None => Throw (invalid_argument "stoull")
  | Some (neg, m) =>
      if m <=? ULLONG_MAX then Ok (if neg then (- m) mod 2 ^ 64 else m)
      else Throw (out_of_range "stoull")
  end.

Definition stoi (s : string) : result Z :=
  match strto s with
  | None => Throw (invalid_argument "stoi")
  | Some (neg, m) =>
      let v := if neg then - m else m in
      if (INT_MIN <=? v) && (v <=? INT_MAX) then Ok v
      else Throw (out_of_range "stoi")
  end.

(** [try { body } catch (const std::exception&) { throw invalid_argument(msg); }] *)
Definition try_catch_rethrow {A} (body : result A) (msg : string) : result A :=
  match body with
  | Ok a => Ok a
  | Throw _ => Throw (invalid_argument msg)
  end.

(** *** Integral types and [static_cast] between them *)

Inductive signedness : Type := Signed | Unsigned.

Definition int_min (sg : signedness) (bits : Z) : Z :=
  match sg with
  | Signed => - 2 ^ (bits - 1)
  | Unsigned => 0
  end.

Definition int_max (sg : signedness) (bits : Z) : Z :=
  match sg with
  | Signed => 2 ^ (bits - 1) - 1
  | Unsigned => 2 ^ bits - 1
  end.

Definition in_range (sg : signedness) (bits : Z) (z : Z) : bool :=
  (int_min sg bits <=? z) && (z <=? int_max sg bits).

(** [static_cast<T>(z)] to an integral [T]: reduction modulo [2^bits]. *)
Definition static_cast (sg : signedness) (bits : Z) (z : Z) : Z :=
  match sg with
  | Unsigned => z mod 2 ^ bits
  | Signed => (z + 2 ^ (bits - 1)) mod 2 ^ bits - 2 ^ (bits - 1)
  end.

(** *** [std::string] searches used by the validators *)

Fixpoint mem_char (c : ascii) (set : string) : bool :=
  match set with
  | EmptyString => false
  | String d set' => Ascii.eqb c d || mem_char c set'
  end.

(** [s.find_first_not_of(set)]; [None] is [npos]. *)
Fixpoint find_first_not_of (set : string) (s : string) : option nat :=
  match s with
  | EmptyString => None
  | String c s' =>
      if mem_char c set then option_map S (find_first_not_of set s')
      else Some O
  end.

(** [s.find_last_not_of(set)]; [None] is [npos]. *)
Fixpoint find_last_not_of (set : string) (s : string) : option nat :=
  match s with
  | EmptyString => None
  | String c s' =>
      match find_last_not_of set s' with
      | Some i => Some (S i)
      | None => if mem_char c set then None else Some O
      end
  end.

(** [s.erase(0, n)]. *)
Fixpoint erase_front (n : nat) (s : string) : string :=
  match n, s with
  | O, _ => s
  | S n', String _ s' => erase_front n' s'
  | S _, EmptyString => EmptyString
  end.

(** [s.erase(n)]: keep the first [n] characters. *)
Fixpoint erase_from (n : nat) (s : string) : string :=
  match n, s with
  | O, _ => EmptyString
  | S n', String c s' => String c (erase_from n' s')
  | S _, EmptyString => EmptyString
  end.

Definition empty (s : string) : bool :=
  match s with
  | EmptyString => true
  | String _ _ => false
  end.

End Cxx.

Import Cxx.

(* ================================================================== *)
(** ** The JSON document the code reads and builds (ArduinoJson) *)

Module ArduinoJson.

(** A document node.  An unbound node (a missing member, a fresh document)
    reads like [JNull].  Integer nodes hold any value a 64-bit signed or
    unsigned integer can; string nodes and member names are C strings. *)
#[warnings="-register-all"]
Inductive JsonVariant : Type :=
| JNull
| JBool (b : bool)
| JInt (z : Z)
| JString (s : string)
| JArray (elements : list JsonVariant)
| JObject (members : list (string * JsonVariant)).

Inductive DeserializationError : Type :=
| EmptyInput
| IncompleteInput
| InvalidInput
| NoMemory
| TooDeep.

(** What [deserializeJson(doc, text)] leaves: the error code, and the
    document when the code is [DeserializationError::Ok]. *)
Inductive ParseResult : Type :=
| ParseOk (doc : JsonVariant)
| ParseError (e : DeserializationError).

(** The text boundary of the library.  [deserializeJson] reads a C string,
    [serializeJson] writes a node, and [parseNumber] is the library's reading
    of a string node when an integer is asked of it ([as<int64_t>()] or
    [as<uint64_t>()] on a string). *)
Class JsonLibrary : Type := {
  deserializeJson : string -> ParseResult;
  serializeJson : JsonVariant -> string;
  parseNumber : signedness -> string -> Z
}.

(** [v.isNull()] *)
Definition isNull (v : JsonVariant) : bool :=
  match v with
  | JNull => true
  | _ => false
  end.

(** [v.is<const char*>()] and [v.is<StdString>()] *)
Definition is_string (v : JsonVariant) : bool :=
  match v with
  | JString _ => true
  | _ => false
  end.

(** [v.is<JsonArray>()] *)
Definition is_JsonArray (v : JsonVariant) : bool :=
  match v with
  | JArray _ => true
  | _ => false
  end.

(** [v.is<JsonObject>()] *)
Definition is_JsonObject (v : JsonVariant) : bool :=
  match v with
  | JObject _ => true
  | _ => false
  end.

(** [v.is<bool>()] *)
Definition is_bool (v : JsonVariant) : bool :=
  match v with
  | JBool _ => true
  | _ => false
  end.

(** [v.is<T>()] for an integral [T]: an integer node whose value fits [T]. *)
Definition is_integral (sg : signedness) (bits : Z) (v : JsonVariant) : bool :=
  match v with
  | JInt z => in_range sg bits z
  | _ => false
  end.

(** [v.as<const char*>()]; [None] is the null pointer. *)
Definition as_cstr (v : JsonVariant) : option string :=
  match v with
  | JString s => Some s
  | _ => None
  end.

(** [v.as<bool>()] *)
Definition as_bool (v : JsonVariant) : bool :=
  match v with
  | JBool b => b
  | JInt z => negb (z =? 0)
  | JNull => false
  | _ => true
  end.

(** [v.as<T>()] for an integral [T]: the node's number when it fits [T],
    0 or 1 for a boolean, the library's reading of a string, 0 otherwise. *)
Definition as_integral `{JsonLibrary} (sg : signedness) (bits : Z)
    (v : JsonVariant) : Z :=
  match v with
  | JInt z => if in_range sg bits z then z else 0
  | JBool b => if b then 1 else 0
  | JString s => let z := parseNumber sg s in
                 if in_range sg bits z then z else 0
  | _ => 0
  end.

(** [v.as<JsonArray>()] with its elements in order; no element when [v] is
    not an array. *)
Definition as_JsonArray (v : JsonVariant) : list JsonVariant :=
  match v with
  | JArray l => l
  | _ => []
  end.

(** [v.as<JsonObject>()] with its members in order. *)
Definition as_JsonObject (v : JsonVariant) : list (string * JsonVariant) :=
  match v with
  | JObject ms => ms
  | _ => []
  end.

Fixpoint find_member (key : string) (ms : list (string * JsonVariant))
    : option JsonVariant :=
  match ms with
  | [] => None
  | (k, v) :: ms' => if String.eqb k key then Some v else find_member key ms'
  end.

(** [doc[key]] read: the member, or an unbound node. *)
Definition member (doc : JsonVariant) (key : string) : JsonVariant :=
  match doc with
  | JObject ms =>
      match find_member key ms with
      | Some v => v
      | None => JNull
      end
  | _ => JNull
  end.

(** [obj[key] = v]: replace the member when the key is there, else append. *)
Fixpoint set_member (key : string) (v : JsonVariant)
    (ms : list (string * JsonVariant)) : list (string * JsonVariant) :=
  match ms with
  | [] => [(key, v)]
  | (k, w) :: ms' =>
      if String.eqb k key then (k, v) :: ms' else (k, w) :: set_member key v ms'
  end.

End ArduinoJson.

Import ArduinoJson.

(* ================================================================== *)
(** ** Types the engine dispatches on, and their values *)

(** Widths of short, int and long/size_t. *)
Inductive width : Type := W16 | W32 | W64.

Definition bits_of (w : width) : Z :=
  match w with
  | W16 => 16
  | W32 => 32
  | W64 => 64
  end.

(** The members of [is_primitive_type] (without float and double). *)
Inductive prim : Type :=
| PBool                                   (* bool, Bool, CBool *)
| PString                                 (* StdString, CStdString *)
| PIntegral (sg : signedness) (w : width) (* short, int, long, size_t, ... *)
| PChar (sg : signedness).                (* char, unsigned char, UInt8, ... *)

(** What a container may hold for [Deserialize] to compile: a primitive, or a
    type with its own [Serialize]/[Deserialize] members (an enum with its
    generated specialisation is used through the same two calls). *)
Inductive elem : Type :=
| EPrim (p : prim)
| EComposite.

Inductive seq_kind : Type :=
| Vector
| List
| Deque
| Set_
| UnorderedSet
| Array (N : nat).

Inductive map_kind : Type :=
| Map
| UnorderedMap.

Inductive ctype : Type :=
| TPrim (p : prim)
| TComposite
| TSeq (k : seq_kind) (e : elem)
| TAssoc (k : map_kind) (key value : elem)
| TOptional (T : ctype).

(** A user type outside the closed categories: default constructible, with
    [value.Serialize()] and the static [T::Deserialize(text)], and the
    comparisons the standard containers ask of their elements and keys. *)
Class CompositeCapability : Type := {
  Composite : Type;
  Composite_default : Composite;
  Composite_Serialize : Composite -> string;
  Composite_Deserialize : string -> result Composite;
  Composite_ltb : Composite -> Composite -> bool;
  Composite_eqb : Composite -> Composite -> bool
}.

Definition char_bits : Z := 8.

(** Width of an integral primitive; [None] for bool and strings. *)
Definition integral_of (p : prim) : option (signedness * Z) :=
  match p with
  | PIntegral sg w => Some (sg, bits_of w)
  | PChar sg => Some (sg, char_bits)
  | _ => None
  end.

Definition denote_prim (p : prim) : Type :=
  match p with
  | PBool => bool
  | PString => string
  | PIntegral _ _ => Z
  | PChar _ => Z
  end.

Definition denote_elem `{CompositeCapability} (e : elem) : Type :=
  match e with
  | EPrim p => denote_prim p
  | EComposite => Composite
  end.

(** Containers are kept as the list of their elements in iteration order;
    maps as the list of their key-value pairs in iteration order. *)
Fixpoint denote `{CompositeCapability} (T : ctype) : Type :=
  match T with
  | TPrim p => denote_prim p
  | TComposite => Composite
  | TSeq _ e => list (denote_elem e)
  | TAssoc _ k v => list (denote_elem k * denote_elem v)
  | TOptional T' => option (denote T')
  end.

(** The value an integral type can hold. *)
Definition prim_ok (p : prim) : denote_prim p -> Prop :=
  match p with
  | PBool => fun _ => True
  | PString => fun _ => True
  | PIntegral sg w => fun z => in_range sg (bits_of w) z = true
  | PChar sg => fun z => in_range sg char_bits z = true
  end.

Definition prim_default (p : prim) : denote_prim p :=
  match p with
  | PBool => false
  | PString => EmptyString
  | PIntegral _ _ => 0
  | PChar _ => 0
  end.

Definition elem_default `{CompositeCapability} (e : elem) : denote_elem e :=
  match e with
  | EPrim p => prim_default p
  | EComposite => Composite_default
  end.

Definition prim_ltb (p : prim) : denote_prim p -> denote_prim p -> bool :=
  match p with
  | PBool => fun a b => negb a && b
  | PString => String.ltb
  | PIntegral _ _ => Z.ltb
  | PChar _ => Z.ltb
  end.

Definition prim_eqb (p : prim) : denote_prim p -> denote_prim p -> bool :=
  match p with
  | PBool => Bool.eqb
  | PString => String.eqb
  | PIntegral _ _ => Z.eqb
  | PChar _ => Z.eqb
  end.

Definition elem_ltb `{CompositeCapability} (e : elem)
    : denote_elem e -> denote_elem e -> bool :=
  match e with
  | EPrim p => prim_ltb p
  | EComposite => Composite_ltb
  end.

Definition elem_eqb `{CompositeCapability} (e : elem)
    : denote_elem e -> denote_elem e -> bool :=
  match e with
  | EPrim p => prim_eqb p
  | EComposite => Composite_eqb
  end.

(** *** The standard containers' insertion operations *)

Section Containers.
Context {A : Type} (ltb eqb : A -> A -> bool).

(** [std::set::insert]: kept in order, an equivalent element is not added. *)
Fixpoint set_insert (v : A) (l : list A) : list A :=
  match l with
  | [] => [v]
  | x :: l' =>
      if ltb v x then v :: l
      else if ltb x v then x :: set_insert v l'
      else l
  end.

(** [std::unordered_set::insert]: an equal element is not added.  The
    iteration order of the unordered containers is unspecified; the list
    takes insertion order, which is one order among those an implementation
    may show.  What is stated of an unordered container is therefore its
    content (its members, the value under a key), never the order of the
    list. *)
Fixpoint uset_insert (v : A) (l : list A) : list A :=
  match l with
  | [] => [v]
  | x :: l' => if eqb x v then l else x :: uset_insert v l'
  end.

(** [a[index] = v] on a [std::array]. *)
Fixpoint array_set (index : nat) (v : A) (l : list A) : list A :=
  match index, l with
  | _, [] => []
  | O, _ :: l' => v :: l'
  | S i, x :: l' => x :: array_set i v l'
  end.

Context {B : Type}.

(** [m[key] = value] on a [std::map]: kept in key order. *)
Fixpoint map_assign (key : A) (value : B) (m : list (A * B)) : list (A * B) :=
  match m with
  | [] => [(key, value)]
  | (k, w) :: m' =>
      if ltb key k then (key, value) :: m
      else if ltb k key then (k, w) :: map_assign key value m'
      else (k, value) :: m'
  end.

(** [m[key] = value] on a [std::unordered_map]; the order of the list is
    insertion order, with the same proviso as for [uset_insert]. *)
Fixpoint umap_assign (key : A) (value : B) (m : list (A * B)) : list (A * B) :=
  match m with
  | [] => [(key, value)]
  | (k, w) :: m' =>
      if eqb k key then (k, value) :: m' else (k, w) :: umap_assign key value m'
  end.
End Containers.

(* ================================================================== *)
(** ** SerializationUtility.h *)

Module SerializationUtility.

Section Engine.
Context `{JL : JsonLibrary} `{CC : CompositeCapability}.

Definition is_primitive_type (T : ctype) : bool :=
  match T with
  | TPrim _ => true
  | _ => false
  end.

(** [convert_primitive_to_string]: the bool branch, the two string
    branches, and [oss << value] for everything else, which writes a number
    for short/int/long and the character itself for the character types. *)
Definition convert_primitive_to_string (p : prim)
    : denote_prim p -> StdString :=
  match p with
  | PBool => fun value => if value then "true" else "false"
  | PString => fun value => value
  | PIntegral _ _ => fun value => ostream_int value
  | PChar _ => fun value => ostream_char value
  end.

(** The [std::is_integral_v<T>] branch of [convert_string_to_primitive]. *)
Definition convert_integral (sg : signedness) (bits : Z) (input : StdString)
    : result Z :=
  try_catch_rethrow
    (match sg with
     | Signed => fmap (static_cast sg bits) (stoll input)
     | Unsigned => fmap (static_cast sg bits) (stoull input)
     end)
    ("Invalid integer value: " ++ input).

(** The character branch of [convert_string_to_primitive] (a one-character
    string is that character, the empty string is 0, anything else goes
    through [stoi]).  It sits below the [std::is_integral_v<T>] branch in
    the [if constexpr] chain, and every type it names is integral, so no
    instantiation selects it. *)
Definition convert_character (sg : signedness) (input : StdString)
    : result Z :=
  match input with
  | String c EmptyString => Ok (static_cast sg char_bits (code c))
  | EmptyString => Ok 0
  | _ =>
      try_catch_rethrow
        (fmap (static_cast sg char_bits) (stoi input))
        ("Invalid character value: " ++ input)
  end.

(** [convert_string_to_primitive<T>]: the [if constexpr] chain is resolved
    per type: bool, then the string types, then [std::is_integral_v<T>],
    which holds of short/int/long/size_t and of the character types
    alike. *)
Definition convert_string_to_primitive (p : prim) (input : StdString)
    : result (denote_prim p) :=
  match p with
  | PBool =>
      let lower := transform tolower input in
      if String.eqb lower "true" || String.eqb lower "1" then Ok true
      else if String.eqb lower "false" || String.eqb lower "0" then Ok false
      else Throw (invalid_argument ("Invalid boolean value: " ++ input))
  | PString => Ok input
  | PIntegral sg w => convert_integral sg (bits_of w) input
  | PChar sg => convert_integral sg char_bits input
  end.

(** The node written for a primitive value: [add(element)] for bool,
    [add(element.c_str())] for the string types,
    [add(static_cast<int64_t>(element))] for the integral ones. *)
Definition primitive_node (p : prim) : denote_prim p -> JsonVariant :=
  match p with
  | PBool => fun element => JBool element
  | PString => fun element => JString (c_str element)
  | PIntegral _ _ => fun element => JInt (static_cast Signed 64 element)
  | PChar _ => fun element => JInt (static_cast Signed 64 element)
  end.

(** What the loop of [serialize_sequential_container] adds to the array for
    one element: a primitive directly; anything else is serialized, parsed
    back and spliced in, or added as a string when it does not parse. *)
Definition added_element (e : elem) : denote_elem e -> JsonVariant :=
  match e with
  | EPrim p => primitive_node p
  | EComposite => fun element =>
      let elementJson := Composite_Serialize element in
      match deserializeJson (c_str elementJson) with
      | ParseOk elementDoc => elementDoc
      | ParseError _ => JString (c_str elementJson)
      end
  end.

Definition serialize_sequential_container (e : elem)
    (container : list (denote_elem e)) : StdString :=
  let array := map (added_element e) container in
  let output := serializeJson (JArray array) in
  c_str output.

(** The first half of [deserialize_and_add_element]: the value read from
    one array element. *)
Definition deserialized_value (e : elem) (element : JsonVariant)
    : result (denote_elem e) :=
  match e with
  | EPrim PBool => Ok (as_bool element)
  | EPrim PString =>
      Ok (match as_cstr element with
          | Some str => str
          | None => EmptyString
          end)
  | EPrim (PIntegral sg w) =>
      Ok (static_cast sg (bits_of w) (as_integral sg 64 element))
  | EPrim (PChar sg) =>
      Ok (static_cast sg char_bits (as_integral sg 64 element))
  | EComposite => Composite_Deserialize (serializeJson element)
  end.

(** The second half: [insert] for the sets, indexing for [std::array],
    [push_back] for vector, list and deque. *)
Definition add_to_container (k : seq_kind) (e : elem)
    (container : list (denote_elem e)) (v : denote_elem e) (index : nat)
    : list (denote_elem e) :=
  match k with
  | Set_ => set_insert (elem_ltb e) v container
  | UnorderedSet => uset_insert (elem_eqb e) v container
  | Array _ =>
      if (index <? List.length container)%nat then array_set index v container
      else container
  | _ => (container ++ [v])%list
  end.

Definition deserialize_and_add_element (k : seq_kind) (e : elem)
    (container : list (denote_elem e)) (element : JsonVariant) (index : nat)
    : result (list (denote_elem e)) :=
  bind (deserialized_value e element)
       (fun v => Ok (add_to_container k e container v index)).

(** [Container container;]  A fresh [std::array] has its [N] slots (their
    content is indeterminate for primitives; the model takes the zero
    value), every other container is empty. *)
Definition new_container (k : seq_kind) (e : elem) : list (denote_elem e) :=
  match k with
  | Array N => repeat (elem_default e) N
  | _ => []
  end.

(** [for (JsonVariant element : jsonArray) { ...; index++; }] *)
Fixpoint add_elements (k : seq_kind) (e : elem)
    (jsonArray : list JsonVariant) (index : nat)
    (container : list (denote_elem e)) : result (list (denote_elem e)) :=
  match jsonArray with
  | [] => Ok container
  | element :: rest =>
      bind (deserialize_and_add_element k e container element index)
           (fun container' => add_elements k e rest (S index) container')
  end.

Definition deserialize_sequential_container (k : seq_kind) (e : elem)
    (input : StdString) : result (list (denote_elem e)) :=
  match deserializeJson (c_str input) with
  | ParseError _ => Throw (invalid_argument ("Failed to parse JSON: " ++ input))
  | ParseOk doc =>
      if negb (is_JsonArray doc) then
        Throw (invalid_argument ("Expected JSON array, got: " ++ input))
      else
        let jsonArray := as_JsonArray doc in
        let container := new_container k e in
        match k with
        | Array arraySize =>
            if negb (List.length jsonArray =? arraySize)%nat then
              Throw (invalid_argument
                       ("JSON array size (" ++ to_string (List.length jsonArray)
                        ++ ") does not match Array size ("
                        ++ to_string arraySize ++ ")"))
            else add_elements k e jsonArray 0 container
        | _ => add_elements k e jsonArray 0 container
        end
  end.

(** The key read from one member of the object. *)
Definition deserialized_key (K : elem) (key : string)
    : result (denote_elem K) :=
  match K with
  | EPrim PString => Ok key
  | EPrim p => convert_string_to_primitive p key
  | EComposite => Composite_Deserialize key
  end.

Definition map_store (mk : map_kind) (K V : elem)
    (key : denote_elem K) (value : denote_elem V)
    (map : list (denote_elem K * denote_elem V))
    : list (denote_elem K * denote_elem V) :=
  match mk with
  | Map => map_assign (elem_ltb K) key value map
  | UnorderedMap => umap_assign (elem_eqb K) key value map
  end.

(** [for (JsonPair pair : jsonObject) { ...; map[key] = value; }] *)
Fixpoint add_pairs (mk : map_kind) (K V : elem)
    (jsonObject : list (string * JsonVariant))
    (map : list (denote_elem K * denote_elem V))
    : result (list (denote_elem K * denote_elem V)) :=
  match jsonObject with
  | [] => Ok map
  | (pair_key, pair_value) :: rest =>
      bind (deserialized_key K pair_key) (fun key =>
      bind (deserialized_value V pair_value) (fun value =>
      add_pairs mk K V rest (map_store mk K V key value map)))
  end.

Definition deserialize_associative_container (mk : map_kind) (K V : elem)
    (input : StdString) : result (list (denote_elem K * denote_elem V)) :=
  match deserializeJson (c_str input) with
  | ParseError _ => Throw (invalid_argument ("Failed to parse JSON: " ++ input))
  | ParseOk doc =>
      if negb (is_JsonObject doc) then
        Throw (invalid_argument ("Expected JSON object, got: " ++ input))
      else add_pairs mk K V (as_JsonObject doc) []
  end.

(** [Serialize] of a key or a mapped value. *)
Definition Serialize_elem (e : elem) : denote_elem e -> StdString :=
  match e with
  | EPrim p => convert_primitive_to_string p
  | EComposite => Composite_Serialize
  end.

(** The value stored for one pair by [serialize_associative_container]:
    the text of the value parsed back when it parses, and the typed value
    only when it does not. *)
Definition stored_value (V : elem) : denote_elem V -> JsonVariant :=
  match V with
  | EPrim p => fun second =>
      let valueJson := convert_primitive_to_string p second in
      match deserializeJson (c_str valueJson) with
      | ParseOk valueDoc => valueDoc
      | ParseError _ => primitive_node p second
      end
  | EComposite => fun second =>
      let valueJson := Composite_Serialize second in
      match deserializeJson (c_str valueJson) with
      | ParseOk valueDoc => valueDoc
      | ParseError _ => JString (c_str valueJson)
      end
  end.

Definition serialize_associative_container (K V : elem)
    (map : list (denote_elem K * denote_elem V)) : StdString :=
  let obj :=
    fold_left
      (fun obj pair =>
         let keyStr := Serialize_elem K (fst pair) in
         set_member (c_str keyStr) (stored_value V (snd pair)) obj)
      map [] in
  let output := serializeJson (JObject obj) in
  c_str output.

(** [Serialize<T>(value)] *)
Fixpoint Serialize (T : ctype) : denote T -> StdString :=
  match T with
  | TOptional T' => fun value =>
      match value with
      | Some x => Serialize T' x
      | None => EmptyString
      end
  | TPrim p => convert_primitive_to_string p
  | TSeq _ e => serialize_sequential_container e
  | TAssoc _ K V => serialize_associative_container K V
  | TComposite => Composite_Serialize
  end.

(** [doc.is<ValueType>()] for a primitive [ValueType]. *)
Definition variant_is (p : prim) (doc : JsonVariant) : bool :=
  match p with
  | PBool => is_bool doc
  | PString => is_string doc
  | PIntegral sg w => is_integral sg (bits_of w) doc
  | PChar sg => is_integral sg char_bits doc
  end.

(** [doc.as<ValueType>()] for a primitive [ValueType]. *)
Definition variant_as (p : prim) (doc : JsonVariant) : denote_prim p :=
  match p with
  | PBool => as_bool doc
  | PString =>
      match as_cstr doc with
      | Some str => str
      | None => EmptyString
      end
  | PIntegral sg w => as_integral sg (bits_of w) doc
  | PChar sg => as_integral sg char_bits doc
  end.

(** The optional branch of [Deserialize], with [Deserialize<ValueType>]
    passed as [inner]. *)
Definition Deserialize_optional (T' : ctype)
    (inner : StdString -> result (denote T')) (input : StdString)
    : result (option (denote T')) :=
  if empty input || String.eqb input "null" || String.eqb input "{}" then
    Ok None
  else
    match deserializeJson (c_str input) with
    | ParseOk doc =>
        if isNull doc then Ok None
        else
          fmap Some
            (match T' as t
                   return (StdString -> result (denote t)) -> result (denote t)
             with
             | TPrim PString => fun inner =>
                 if is_string doc then
                   match as_cstr doc with
                   | Some str => Ok str
                   | None => inner input
                   end
                 else inner input
             | TPrim p => fun inner =>
                 if variant_is p doc then Ok (variant_as p doc)
                 else inner input
             | _ => fun inner => inner (serializeJson doc)
             end inner)
    | ParseError _ => fmap Some (inner input)
    end.

(** [Deserialize<ReturnType>(input)] *)
Fixpoint Deserialize (T : ctype) (input : StdString) : result (denote T) :=
  match T with
  | TOptional T' => Deserialize_optional T' (Deserialize T') input
  | TPrim p => convert_string_to_primitive p input
  | TSeq k e => deserialize_sequential_container k e input
  | TAssoc mk K V => deserialize_associative_container mk K V input
  | TComposite => Composite_Deserialize input
  end.
End Engine.

End SerializationUtility.

(* ================================================================== *)
(** ** The free helpers [SerializeValue] and [DeserializeValue] *)

Module SerializationHelpers.
Import SerializationUtility.

(** The types [DeserializeValue<T>] compiles for: a primitive, a sequential
    or associative container, or a type with a static [Deserialize] (an enum
    goes through its [Deserialize<T>] specialisation the same way).  An
    optional reaches the last branch and has no such member. *)
Inductive value_type : Type :=
| VPrim (p : prim)
| VSeq (k : seq_kind) (e : elem)
| VAssoc (k : map_kind) (key value : elem)
| VComposite.

Definition ctype_of (T : value_type) : ctype :=
  match T with
  | VPrim p => TPrim p
  | VSeq k e => TSeq k e
  | VAssoc k key value => TAssoc k key value
  | VComposite => TComposite
  end.

Section Helpers.
Context `{JL : JsonLibrary} `{CC : CompositeCapability}.

(** [SerializeValue<T>(value)]: a primitive goes to
    [convert_primitive_to_string], anything else to its own [Serialize()];
    the types it compiles for are those of [elem]. *)
Definition SerializeValue (T : elem) : denote_elem T -> StdString :=
  match T with
  | EPrim p => convert_primitive_to_string p
  | EComposite => Composite_Serialize
  end.

(** [DeserializeValue<ReturnType>(input)] *)
Definition DeserializeValue (T : value_type) (input : StdString)
    : result (denote (ctype_of T)) :=
  match T with
  | VPrim p => convert_string_to_primitive p input
  | VSeq k e => Deserialize (TSeq k e) input
  | VAssoc k key value => Deserialize (TAssoc k key value) input
  | VComposite => Composite_Deserialize input
  end.
End Helpers.

End SerializationHelpers.

(* ================================================================== *)
(** ** ValidationUtility.h *)

Module ValidationUtility.

(** The two-character text [",\n"]. *)
Definition separator : string := String "," (String "010" EmptyString).

(** The set [" \t\n\r"] given to the two searches. *)
Definition whitespace : string :=
  String " " (String "009" (String "010" (String "013" EmptyString))).

(** [if (!validationErrors.empty()) validationErrors += ",\n";] *)
Definition separate (validationErrors : StdString) : StdString :=
  if negb (empty validationErrors) then validationErrors ++ separator
  else validationErrors.

(** A validator returns its boolean and leaves the log it was given by
    reference; both are returned here. *)
Definition ValidateNotNull (doc : JsonVariant) (fieldName : string)
    (validationErrors : StdString) : bool * StdString :=
  if isNull (member doc fieldName) then
    let validationErrors := separate validationErrors in
    let validationErrors := validationErrors ++ "NotNull field '" in
    let validationErrors := validationErrors ++ fieldName in
    let validationErrors :=
      validationErrors ++ "' is required but was null or missing" in
    (false, validationErrors)
  else (true, validationErrors).

(** The two trimming steps of [ValidateNotBlank]. *)
Definition trim (fieldValue : StdString) : StdString :=
  let trimmed := fieldValue in
  let trimmed :=
    match find_first_not_of whitespace trimmed with
    | Some start => erase_front start trimmed
    | None => EmptyString
    end in
  if negb (empty trimmed) then
    match find_last_not_of whitespace trimmed with
    | Some end_ => erase_from (end_ + 1) trimmed
    | None => EmptyString
    end
  else trimmed.

(** [ValidateNotBlank] builds a [StdString] from
    [doc[fieldName].as<const char*>()] unchecked; for a node that is neither
    null nor a string that pointer is null and the construction is undefined:
    [None]. *)
Definition ValidateNotBlank (doc : JsonVariant) (fieldName : string)
    (validationErrors : StdString) : option (bool * StdString) :=
  if isNull (member doc fieldName) then
    let validationErrors := separate validationErrors in
    let validationErrors := validationErrors ++ "NotBlank field '" in
    let validationErrors := validationErrors ++ fieldName in
    let validationErrors :=
      validationErrors ++ "' is required but was null or missing" in
    Some (false, validationErrors)
  else
    match as_cstr (member doc fieldName) with
    | None => None
    | Some fieldValue =>
        let trimmed := trim fieldValue in
        if empty trimmed then
          let validationErrors := separate validationErrors in
          let validationErrors := validationErrors ++ "NotBlank field '" in
          let validationErrors := validationErrors ++ fieldName in
          let validationErrors :=
            validationErrors ++ "' cannot be empty or blank" in
          Some (false, validationErrors)
        else Some (true, validationErrors)
    end.

Definition ValidateNotEmpty (doc : JsonVariant) (fieldName : string)
    (validationErrors : StdString) : bool * StdString :=
  if isNull (member doc fieldName) then
    let validationErrors := separate validationErrors in
    let validationErrors := validationErrors ++ "NotEmpty field '" in
    let validationErrors := validationErrors ++ fieldName in
    let validationErrors :=
      validationErrors ++ "' is required but was null or missing" in
    (false, validationErrors)
  else if is_string (member doc fieldName)      (* is<const char*>() *)
          || is_string (member doc fieldName)   (* is<StdString>() *)
  then
    let fieldValue :=
      match as_cstr (member doc fieldName) with
      | Some str => str
      | None => EmptyString
      end in
    if empty fieldValue then
      let validationErrors := separate validationErrors in
      let validationErrors := validationErrors ++ "NotEmpty field '" in
      let validationErrors := validationErrors ++ fieldName in
      let validationErrors := validationErrors ++ "' cannot be empty" in
      (false, validationErrors)
    else (true, validationErrors)
  else if is_JsonArray (member doc fieldName) then
    let arr := as_JsonArray (member doc fieldName) in
    if (List.length arr =? 0)%nat then
      let validationErrors := separate validationErrors in
      let validationErrors := validationErrors ++ "NotEmpty field '" in
      let validationErrors := validationErrors ++ fieldName in
      let validationErrors :=
        validationErrors ++ "' (array/collection) cannot be empty" in
      (false, validationErrors)
    else (true, validationErrors)
  else if is_JsonObject (member doc fieldName) then
    let obj := as_JsonObject (member doc fieldName) in
    if (List.length obj =? 0)%nat then
      let validationErrors := separate validationErrors in
      let validationErrors := validationErrors ++ "NotEmpty field '" in
      let validationErrors := validationErrors ++ fieldName in
      let validationErrors := validationErrors ++ "' (map) cannot be empty" in
      (false, validationErrors)
    else (true, validationErrors)
  else (true, validationErrors).

End ValidationUtility.

(* ================================================================== *)
(** ** A reference reader and writer for the JSON text boundary

    The engine is stated over any [JsonLibrary].  This instance runs it on
    concrete texts: the compact writer of ArduinoJson, and a reader for
    well-formed JSON into the nodes of [JsonVariant] (no fractions or
    exponents, no [\u] escapes; text after the top-level value other than
    white space is an [InvalidInput]). *)

Module JsonText.

Definition quote : ascii := "034".
Definition backslash : ascii := "092".

(** The letter written after a backslash for a character the writer
    escapes. *)
Definition escape_of (c : ascii) : option ascii :=
  if Ascii.eqb c quote then Some quote
  else if Ascii.eqb c backslash then Some backslash
  else if code c =? 8 then Some "b"%char
  else if code c =? 12 then Some "f"%char
  else if code c =? 10 then Some "n"%char
  else if code c =? 13 then Some "r"%char
  else if code c =? 9 then Some "t"%char
  else None.

(** The character an escape letter stands for when read. *)
Definition unescape_of (e : ascii) : option ascii :=
  if Ascii.eqb e quote then Some quote
  else if Ascii.eqb e backslash then Some backslash
  else if Ascii.eqb e "/" then Some "/"%char
  else if Ascii.eqb e "b" then Some (chr 8)
  else if Ascii.eqb e "f" then Some (chr 12)
  else if Ascii.eqb e "n" then Some (chr 10)
  else if Ascii.eqb e "r" then Some (chr 13)
  else if Ascii.eqb e "t" then Some (chr 9)
  else None.

Fixpoint write_chars (s : string) : string :=
  match s with
  | EmptyString => EmptyString
  | String c s' =>
      match escape_of c with
      | Some e => String backslash (String e (write_chars s'))
      | None => String c (write_chars s')
      end
  end.

Definition write_string (s : string) : string :=
  String quote (write_chars s ++ String quote EmptyString).

Fixpoint write (v : JsonVariant) : string :=
  match v with
  | JNull => "null"
  | JBool b => if b then "true" else "false"
  | JInt z => ostream_int z
  | JString s => write_string s
  | JArray l =>
      let fix elements (l : list JsonVariant) : string :=
        match l with
        | [] => EmptyString
        | [x] => write x
        | x :: l' => write x ++ "," ++ elements l'
        end in
      "[" ++ elements l ++ "]"
  | JObject ms =>
      let fix members (ms : list (string * JsonVariant)) : string :=
        match ms with
        | [] => EmptyString
        | [(k, x)] => write_string k ++ ":" ++ write x
        | (k, x) :: ms' => write_string k ++ ":" ++ write x ++ "," ++ members ms'
        end in
      "{" ++ members ms ++ "}"
  end.

Definition json_space (c : ascii) : bool :=
  (code c =? 32) || (code c =? 9) || (code c =? 10) || (code c =? 13).

Fixpoint skip_spaces (s : string) : string :=
  match s with
  | String c s' => if json_space c then skip_spaces s' else s
  | EmptyString => s
  end.

(** After the opening quote: the characters up to the closing quote, and the
    text after it. *)
Fixpoint read_chars (s : string) : option (string * string) :=
  match s with
  | EmptyString => None
  | String c s' =>
      if Ascii.eqb c quote then Some (EmptyString, s')
      else if Ascii.eqb c backslash then
        match s' with
        | String e s'' =>
            match unescape_of e, read_chars s'' with
            | Some d, Some (str, rest) => Some (String d str, rest)
            | _, _ => None
            end
        | EmptyString => None
        end
      else
        match read_chars s' with
        | Some (str, rest) => Some (String c str, rest)
        | None => None
        end
  end.

Fixpoint drop_digits (s : string) : string :=
  match s with
  | String c s' => if isdigit c then drop_digits s' else s
  | EmptyString => s
  end.

Definition starts_fraction (s : string) : bool :=
  match s with
  | String c _ => Ascii.eqb c "." || Ascii.eqb c "e" || Ascii.eqb c "E"
  | EmptyString => false
  end.

(** An optional minus sign and decimal digits, within what a 64-bit integer
    node holds. *)
Definition read_number (s : string) : option (Z * string) :=
  let '(neg, s1) :=
    match s with
    | String c r => if Ascii.eqb c "-" then (true, r) else (false, s)
    | EmptyString => (false, s)
    end in
  match digit_run s1 with
  | [] => None
  | ds =>
      let m := decimal_value ds in
      let z := if neg then - m else m in
      let rest := drop_digits s1 in
      if starts_fraction rest then None
      else if (LLONG_MIN <=? z) && (z <=? ULLONG_MAX) then Some (z, rest)
      else None
  end.

Fixpoint strip_prefix (p s : string) : option string :=
  match p, s with
  | EmptyString, _ => Some s
  | String a p', String b s' => if Ascii.eqb a b then strip_prefix p' s' else None
  | String _ _, EmptyString => None
  end.

(** White space, then the character [c]: the text after it. *)
Definition expect (c : ascii) (s : string) : option string :=
  match skip_spaces s with
  | String d r => if Ascii.eqb d c then Some r else None
  | EmptyString => None
  end.

Fixpoint read_value (fuel : nat) (s : string) : option (JsonVariant * string) :=
  match fuel with
  | O => None
  | S f =>
      match expect "[" s, expect "{" s, expect quote s with
      | Some r, _, _ =>
          match expect "]" r with
          | Some r' => Some (JArray [], r')
          | None =>
              match read_elements f r with
              | Some (l, r') => Some (JArray l, r')
              | None => None
              end
          end
      | _, Some r, _ =>
          match expect "}" r with
          | Some r' => Some (JObject [], r')
          | None =>
              match read_members f r with
              | Some (ms, r') => Some (JObject ms, r')
              | None => None
              end
          end
      | _, _, Some r =>
          match read_chars r with
          | Some (str, r') => Some (JString str, r')
          | None => None
          end
      | None, None, None =>
          let s0 := skip_spaces s in
          match strip_prefix "null" s0, strip_prefix "true" s0,
                strip_prefix "false" s0 with
          | Some r', _, _ => Some (JNull, r')
          | _, Some r', _ => Some (JBool true, r')
          | _, _, Some r' => Some (JBool false, r')
          | None, None, None =>
              match read_number s0 with
              | Some (z, r') => Some (JInt z, r')
              | None => None
              end
          end
      end
  end
with read_elements (fuel : nat) (s : string)
    : option (list JsonVariant * string) :=
  match fuel with
  | O => None
  | S f =>
      match read_value f s with
      | Some (v, r) =>
          match expect "," r, expect "]" r with
          | Some r', _ =>
              match read_elements f r' with
              | Some (l, r'') => Some (v :: l, r'')
              | None => None
              end
          | None, Some r' => Some ([v], r')
          | None, None => None
          end
      | None => None
      end
  end
with read_members (fuel : nat) (s : string)
    : option (list (string * JsonVariant) * string) :=
  match fuel with
  | O => None
  | S f =>
      match expect quote s with
      | Some r =>
          match read_chars r with
          | Some (k, r1) =>
              match expect ":" r1 with
              | Some r2 =>
                  match read_value f r2 with
                  | Some (v, r3) =>
                      match expect "," r3, expect "}" r3 with
                      | Some r4, _ =>
                          match read_members f r4 with
                          | Some (ms, r5) => Some ((k, v) :: ms, r5)
                          | None => None
                          end
                      | None, Some r4 => Some ([(k, v)], r4)
                      | None, None => None
                      end
                  | None => None
                  end
              | None => None
              end
          | None => None
          end
      | None => None
      end
  end.

Definition read (s : string) : ParseResult :=
  match skip_spaces s with
  | EmptyString => ParseError EmptyInput
  | _ =>
      match read_value (S (String.length s)) s with
      | Some (v, r) =>
          match skip_spaces r with
          | EmptyString => ParseOk v
          | _ => ParseError InvalidInput
          end
      | None => ParseError InvalidInput
      end
  end.

(** A string node asked for an integer: its value when the whole string is
    an integer literal, 0 otherwise. *)
Definition number_of_string (sg : signedness) (s : string) : Z :=
  match read_number s with
  | Some (z, EmptyString) => z
  | _ => 0
  end.

#[export] Instance library : JsonLibrary := {
  deserializeJson := read;
  serializeJson := write;
  parseNumber := number_of_string
}.

End JsonText.

(** A composite type for running the engine: a point with two [int] members
    written as a JSON array of two numbers. *)
Module Point.

Definition t : Type := Z * Z.

Definition Serialize (p : t) : StdString :=
  "[" ++ ostream_int (fst p) ++ "," ++ ostream_int (snd p) ++ "]".

Definition Deserialize (input : StdString) : result t :=
  match JsonText.read (c_str input) with
  | ParseOk (JArray [JInt x; JInt y]) => Ok (x, y)
  | _ => Throw (invalid_argument ("Invalid Point: " ++ input))
  end.

Definition ltb (p q : t) : bool :=
  (fst p <? fst q) || ((fst p =? fst q) && (snd p <? snd q)).

Definition eqb (p q : t) : bool :=
  (fst p =? fst q) && (snd p =? snd q).

#[export] Instance capability : CompositeCapability := {
  Composite := t;
  Composite_default := (0, 0);
  Composite_Serialize := Serialize;
  Composite_Deserialize := Deserialize;
  Composite_ltb := ltb;
  Composite_eqb := eqb
}.

End Point.

Import SerializationUtility ValidationUtility.

(* ================================================================== *)
(** ** Predicates used in the statements *)

(** Every character of [s] is a decimal digit. *)
Fixpoint all_digits (s : string) : bool :=
  match s with
  | EmptyString => true
  | String c s' => isdigit c && all_digits s'
  end.

(** The character value [z] comes back from its own text. *)
Definition char_survives (sg : signedness) (z : Z) : bool :=
  match convert_string_to_primitive (PChar sg)
          (convert_primitive_to_string (PChar sg) z) with
  | Ok v => v =? z
  | Throw _ => false
  end.

(** Every value of [signed char] and of [unsigned char]. *)
Definition char_values : list Z :=
  map (fun n => Z.of_nat n - 128) (seq 0 384).

(** What a value must satisfy for its array node to carry it: a string has
    no NUL inside, an integer fits its type and [int64_t]. *)
Definition node_survives (p : prim) : denote_prim p -> Prop :=
  match p with
  | PBool => fun _ => True
  | PString => fun s => c_str s = s
  | PIntegral sg w => fun z => in_range sg (bits_of w) z = true /\ z <= LLONG_MAX
  | PChar sg => fun z => in_range sg char_bits z = true
  end.

(** The shape the container has to have been in: a [std::array] has its
    declared size, a [std::set] iterates in strictly increasing order, an
    [std::unordered_set] holds no two equal elements. *)
Definition container_shape `{CompositeCapability} (k : seq_kind) (e : elem)
    (c : list (denote_elem e)) : Prop :=
  match k with
  | Array N => List.length c = N
  | Set_ =>
      StronglySorted
        (fun a b => elem_ltb e a b = true /\ elem_ltb e b a = false) c
  | UnorderedSet => ForallOrdPairs (fun a b => elem_eqb e a b = false) c
  | _ => True
  end.

(** What the loop needs of the elements still to come, given the container
    built so far: each one lands at the end. *)
Definition lands_last `{CompositeCapability} (k : seq_kind) (p : prim)
    (acc c : list (denote_prim p)) : Prop :=
  match k with
  | Array _ => False
  | _ => container_shape k (EPrim p) (acc ++ c)%list
  end.

(** Every character of [s] is one of [set]. *)
Fixpoint all_in (set s : string) : bool :=
  match s with
  | EmptyString => true
  | String c s' => mem_char c set && all_in set s'
  end.

(** One validator call seen from the log: untouched on success; on failure
    the old log, the separator when the old log was not empty, and one of
    the validator's messages. *)
Definition log_step (messages : list string) (before : StdString)
    (outcome : bool * StdString) : Prop :=
  if fst outcome then snd outcome = before
  else
    exists msg,
      In msg messages /\
      snd outcome
      = (before ++ (if empty before then EmptyString else separator) ++ msg)%string.

(** The messages of the three validators for a field name. *)
Definition NotNull_message (fieldName : string) : string :=
  "NotNull field '" ++ fieldName ++ "' is required but was null or missing".

Definition NotBlank_missing_message (fieldName : string) : string :=
  "NotBlank field '" ++ fieldName ++ "' is required but was null or missing".

Definition NotBlank_blank_message (fieldName : string) : string :=
  "NotBlank field '" ++ fieldName ++ "' cannot be empty or blank".

Definition NotEmpty_missing_message (fieldName : string) : string :=
  "NotEmpty field '" ++ fieldName ++ "' is required but was null or missing".

Definition NotEmpty_string_message (fieldName : string) : string :=
  "NotEmpty field '" ++ fieldName ++ "' cannot be empty".

Definition NotEmpty_array_message (fieldName : string) : string :=
  "NotEmpty field '" ++ fieldName ++ "' (array/collection) cannot be empty".

Definition NotEmpty_map_message (fieldName : string) : string :=
  "NotEmpty field '" ++ fieldName ++ "' (map) cannot be empty".

(** The text of the value a document node holds as a [p]: the payload that
    [Deserialize] of [p] reads that value from. *)
Definition node_payload `{JsonLibrary} (p : prim) (doc : JsonVariant)
    : StdString :=
  match p with
  | PBool => convert_primitive_to_string PBool (as_bool doc)
  | PString => variant_as PString doc
  | PIntegral sg w => ostream_int (as_integral sg (bits_of w) doc)
  | PChar sg => ostream_int (as_integral sg char_bits doc)
  end.

(** The elements of a JSON array read one after the other, the way the
    element loop does: the first exception ends the reading. *)
Fixpoint read_all `{JsonLibrary} `{CompositeCapability} (e : elem)
    (elements : list JsonVariant) : result (list (denote_elem e)) :=
  match elements with
  | [] => Ok []
  | element :: rest =>
      bind (deserialized_value e element) (fun v =>
      bind (read_all e rest) (fun vs => Ok (v :: vs)))
  end.

(** The kinds that keep the order of the array: vector, list, deque, and an
    array of the size of the JSON array. *)
Definition keeps_order (k : seq_kind) (size : nat) : Prop :=
  match k with
  | Vector | List | Deque => True
  | Array N => size = N
  | Set_ | UnorderedSet => False
  end.

(** The value under a key in a map kept as its list of pairs. *)
Fixpoint lookup {A} (key : string) (m : list (string * A)) : option A :=
  match m with
  | [] => None
  | (k, v) :: m' => if String.eqb k key then Some v else lookup key m'
  end.

(** The keys of a map in iteration order: strictly increasing for
    [std::map], pairwise different for [std::unordered_map]. *)
Definition keys_shape (mk : map_kind) (keys : list string) : Prop :=
  match mk with
  | Map => StronglySorted (fun a b => String.ltb a b = true) keys
  | UnorderedMap => NoDup keys
  end.

(** The object [serialize_associative_container] builds for a string-keyed
    map whose keys are all different: one member for each pair, in order. *)
Definition written_members `{JsonLibrary} `{CompositeCapability} (V : elem)
    (m : list (string * denote_elem V)) : list (string * JsonVariant) :=
  map (fun pair => (fst pair, stored_value V (snd pair))) m.

(** A pair comes through its member: the key holds no NUL and the node
    stored for the value reads back as the value. *)
Definition pair_survives `{JsonLibrary} `{CompositeCapability} (V : elem)
    (pair : string * denote_elem V) : Prop :=
  c_str (fst pair) = fst pair
  /\ deserialized_value V (stored_value V (snd pair)) = Ok (snd pair).

(** An element comes through its array node: what the writer adds for it
    reads back as the element. *)
Definition element_survives `{JsonLibrary} `{CompositeCapability} (e : elem)
    (element : denote_elem e) : Prop :=
  deserialized_value e (added_element e element) = Ok element.

(* ================================================================== *)
(** ** Facts about the C++ library model *)

Lemma append_assoc (a b c : string) :
  ((a ++ b) ++ c)%string = (a ++ (b ++ c))%string.
Proof.
  induction a as [|x a IH]; simpl; [reflexivity | now rewrite IH].
Qed.

Lemma append_empty_r (s : string) : (s ++ EmptyString)%string = s.
Proof.
  induction s as [|x s IH]; simpl; [reflexivity | now rewrite IH].
Qed.

Lemma code_bounds (c : ascii) : 0 <= code c < 256.
Proof.
  unfold code. pose proof (N_ascii_bounded c). lia.
Qed.

Lemma code_chr (z : Z) : 0 <= z < 256 -> code (chr z) = z.
Proof.
  intros Hz. unfold code, chr.
  rewrite Z.mod_small by lia.
  rewrite N_ascii_embedding by lia. lia.
Qed.

Lemma chr_code (c : ascii) : chr (code c) = c.
Proof.
  unfold chr. pose proof (code_bounds c) as Hc.
  rewrite Z.mod_small by lia. unfold code.
  rewrite N2Z.id. apply ascii_N_embedding.
Qed.

Lemma code_inj (c d : ascii) : code c = code d -> c = d.
Proof.
  intros H. rewrite <- (chr_code c), <- (chr_code d). now rewrite H.
Qed.

Lemma digit_char_spec (d : Z) :
  0 <= d < 10 -> isdigit (digit_char d) = true /\ code (digit_char d) - 48 = d.
Proof.
  intros Hd. unfold isdigit, digit_char.
  rewrite code_chr by lia. split; lia.
Qed.

Lemma all_digits_app (s t : string) :
  all_digits (s ++ t) = all_digits s && all_digits t.
Proof.
  induction s as [|c s IH]; simpl; [reflexivity|].
  rewrite IH. now rewrite andb_assoc.
Qed.

Lemma digit_run_app (s t : string) :
  all_digits s = true -> digit_run (s ++ t) = (digit_run s ++ digit_run t)%list.
Proof.
  induction s as [|c s IH]; simpl; intros H; [reflexivity|].
  apply andb_true_iff in H as [Hc Hs]. rewrite Hc. simpl. now rewrite IH.
Qed.

Lemma decimal_value_snoc (ds : list Z) (d : Z) :
  decimal_value (ds ++ [d]) = 10 * decimal_value ds + d.
Proof.
  unfold decimal_value. now rewrite fold_left_app.
Qed.

(** The digits written for [n] are digits, there is at least one, and they
    read back as [n]. *)
Lemma decimal_digits_spec (fuel : nat) :
  forall n, 0 <= n < 2 ^ Z.of_nat (S fuel) ->
    all_digits (decimal_digits (S fuel) n) = true /\
    decimal_digits (S fuel) n <> EmptyString /\
    decimal_value (digit_run (decimal_digits (S fuel) n)) = n.
Proof.
  assert (Hsingle : forall f n, 0 <= n < 10 ->
    all_digits (decimal_digits (S f) n) = true /\
    decimal_digits (S f) n <> EmptyString /\
    decimal_value (digit_run (decimal_digits (S f) n)) = n).
  { intros f n Hn. cbn [decimal_digits].
    destruct (Z.ltb_spec n 10) as [_|]; [|lia].
    rewrite Z.mod_small by lia.
    destruct (digit_char_spec n Hn) as [Hdig Hval].
    simpl. rewrite Hdig, Hval. repeat split; discriminate. }
  induction fuel as [|f IH]; intros n Hn.
  - apply Hsingle. simpl in Hn. lia.
  - destruct (Z.ltb_spec n 10) as [Hlt|Hge]; [apply Hsingle; lia|].
    remember (S f) as g eqn:Eg.
    cbn [decimal_digits].
    destruct (Z.ltb_spec n 10) as [|_]; [lia|].
    assert (Hd : 0 <= n mod 10 < 10) by (apply Z.mod_pos_bound; lia).
    destruct (digit_char_spec _ Hd) as [Hdig Hval].
    assert (Hq : 0 <= n / 10 < 2 ^ Z.of_nat g).
    { split; [apply Z.div_pos; lia|].
      apply Z.div_lt_upper_bound; [lia|].
      rewrite (Nat2Z.inj_succ g), Z.pow_succ_r in Hn by lia. lia. }
    subst g. destruct (IH _ Hq) as (Hall & Hne & Hv).
    rewrite all_digits_app, Hall. simpl all_digits. rewrite Hdig.
    repeat split.
    + destruct (decimal_digits (S f) (n / 10)); [congruence | discriminate].
    + rewrite digit_run_app by assumption.
      simpl digit_run at 2. rewrite Hdig, Hval.
      rewrite decimal_value_snoc, Hv.
      pose proof (Z.div_mod n 10). lia.
Qed.

Lemma decimal_spec (n : Z) :
  0 <= n ->
  all_digits (decimal n) = true /\
  decimal n <> EmptyString /\
  decimal_value (digit_run (decimal n)) = n.
Proof.
  intros Hn. unfold decimal. apply decimal_digits_spec.
  split; [assumption|].
  destruct (Z.eq_dec n 0) as [->|Hnz]; [simpl; lia|].
  rewrite Nat2Z.inj_succ, Z2Nat.id by apply Z.log2_nonneg.
  apply Z.log2_spec. lia.
Qed.

Lemma isdigit_not_space (c : ascii) : isdigit c = true -> isspace c = false.
Proof.
  unfold isdigit, isspace. intros H. lia.
Qed.

Lemma isdigit_not_sign (c : ascii) :
  isdigit c = true -> Ascii.eqb c "-" = false /\ Ascii.eqb c "+" = false.
Proof.
  unfold isdigit. intros H.
  split; apply Ascii.eqb_neq; intros ->; vm_compute in H; discriminate.
Qed.

(** [strtoll]/[strtoull] on the decimal text of a non-negative number. *)
Lemma strto_decimal (n : Z) : 0 <= n -> strto (decimal n) = Some (false, n).
Proof.
  intros Hn. destruct (decimal_spec n Hn) as (Hall & Hne & Hv).
  unfold strto. destruct (decimal n) as [|c s] eqn:E; [congruence|].
  simpl in Hall. apply andb_true_iff in Hall as [Hc Hs].
  simpl skip_space. rewrite (isdigit_not_space _ Hc).
  destruct (isdigit_not_sign _ Hc) as [-> ->].
  destruct (digit_run (String c s)) as [|d ds] eqn:Ed.
  - simpl in Ed. rewrite Hc in Ed. discriminate.
  - now rewrite Hv.
Qed.

(** ... and on a minus sign followed by it. *)
Lemma strto_minus_decimal (n : Z) :
  0 <= n -> strto (String "-" (decimal n)) = Some (true, n).
Proof.
  intros Hn. destruct (decimal_spec n Hn) as (Hall & Hne & Hv).
  unfold strto. simpl skip_space.
  change (isspace "-") with false. cbv iota.
  rewrite Ascii.eqb_refl.
  destruct (digit_run (decimal n)) as [|d ds] eqn:Ed.
  - destruct (decimal n) as [|c s]; [congruence|].
    simpl in Hall, Ed. apply andb_true_iff in Hall as [Hc _].
    rewrite Hc in Ed. discriminate.
  - now rewrite Hv.
Qed.

Lemma strto_ostream_int (z : Z) :
  strto (ostream_int z) = Some (z <? 0, Z.abs z).
Proof.
  unfold ostream_int. destruct (Z.ltb_spec z 0).
  - rewrite strto_minus_decimal by lia. f_equal. f_equal. lia.
  - rewrite strto_decimal by lia. f_equal. f_equal. lia.
Qed.
Lemma static_cast_in_range (sg : signedness) (bits z : Z) :
  0 < bits -> in_range sg bits z = true -> static_cast sg bits z = z.
Proof.
  intros Hb Hr. unfold in_range, int_min, int_max in Hr.
  assert (Hp : 2 ^ bits = 2 * 2 ^ (bits - 1)).
  { rewrite <- Z.pow_succ_r by lia. f_equal. lia. }
  assert (0 < 2 ^ (bits - 1)) by (apply Z.pow_pos_nonneg; lia).
  destruct sg; simpl.
  - rewrite Z.mod_small; lia.
  - rewrite Z.mod_small; lia.
Qed.

Lemma in_range_widen (sg : signedness) (bits z : Z) :
  0 < bits <= 64 -> in_range sg bits z = true -> in_range sg 64 z = true.
Proof.
  intros Hb Hr. unfold in_range, int_min, int_max in *.
  assert (2 ^ (bits - 1) <= 2 ^ 63) by (apply Z.pow_le_mono_r; lia).
  assert (2 ^ bits <= 2 ^ 64) by (apply Z.pow_le_mono_r; lia).
  destruct sg; simpl in *; lia.
Qed.

(** The integral branch reads back what [oss << value] wrote for a number. *)
Lemma convert_integral_ostream_int (sg : signedness) (bits z : Z) :
  0 < bits <= 64 -> in_range sg bits z = true ->
  convert_integral sg bits (ostream_int z) = Ok z.
Proof.
  intros Hb Hr. pose proof (in_range_widen _ _ _ Hb Hr) as H64.
  unfold convert_integral, stoll, stoull.
  rewrite strto_ostream_int.
  unfold in_range, int_min, int_max in H64.
  destruct sg; simpl in H64.
  - replace (if z <? 0 then - Z.abs z else Z.abs z) with z
      by (destruct (Z.ltb_spec z 0); lia).
    unfold LLONG_MIN, LLONG_MAX.
    replace ((- 2 ^ 63 <=? z) && (z <=? 2 ^ 63 - 1)) with true by lia.
    cbn [fmap bind try_catch_rethrow].
    rewrite static_cast_in_range; [reflexivity | lia | assumption].
  - unfold ULLONG_MAX.
    replace (Z.abs z <=? 2 ^ 64 - 1) with true by lia.
    replace (z <? 0) with false by lia.
    cbn [fmap bind try_catch_rethrow].
    rewrite static_cast_in_range; [f_equal; lia | lia |].
    replace (Z.abs z) with z by lia. assumption.
Qed.

Lemma bits_of_bounds (w : width) : 0 < bits_of w <= 64.
Proof. destruct w; simpl; lia. Qed.

Lemma bool_round_trip (b : bool) :
  convert_string_to_primitive PBool (convert_primitive_to_string PBool b) = Ok b.
Proof. destruct b; reflexivity. Qed.

Lemma string_round_trip (s : string) :
  convert_string_to_primitive PString (convert_primitive_to_string PString s)
  = Ok s.
Proof. reflexivity. Qed.

(** short, int, long, size_t and their unsigned forms survive the text
    round trip. *)
Lemma integral_round_trip (sg : signedness) (w : width) (z : Z) :
  in_range sg (bits_of w) z = true ->
  convert_string_to_primitive (PIntegral sg w)
    (convert_primitive_to_string (PIntegral sg w) z) = Ok z.
Proof.
  intros Hr. simpl. apply convert_integral_ostream_int; [apply bits_of_bounds | assumption].
Qed.

Lemma char_values_complete (sg : signedness) (z : Z) :
  in_range sg char_bits z = true -> In z char_values.
Proof.
  intros Hr. unfold in_range, int_min, int_max, char_bits in Hr.
  unfold char_values. apply in_map_iff.
  exists (Z.to_nat (z + 128)). split.
  - destruct sg; simpl in Hr; lia.
  - apply in_seq. destruct sg; simpl in Hr; lia.
Qed.

(** No value of a character type survives the text round trip: the text is
    the character itself and the integral branch reads it as a number. *)
Lemma char_never_round_trips (sg : signedness) (z : Z) :
  in_range sg char_bits z = true ->
  convert_string_to_primitive (PChar sg)
    (convert_primitive_to_string (PChar sg) z) <> Ok z.
Proof.
  intros Hr Heq.
  assert (Hall : forallb (fun v => negb (char_survives sg v)) char_values = true)
    by (destruct sg; vm_compute; reflexivity).
  rewrite forallb_forall in Hall.
  specialize (Hall z (char_values_complete sg z Hr)).
  unfold char_survives in Hall. rewrite Heq in Hall.
  rewrite Z.eqb_refl in Hall. discriminate.
Qed.

(** The branch written for the character types would have kept them. *)
Lemma convert_character_round_trip (sg : signedness) (z : Z) :
  in_range sg char_bits z = true ->
  convert_character sg (convert_primitive_to_string (PChar sg) z) = Ok z.
Proof.
  intros Hr.
  assert (Hall : forallb
            (fun v => negb (in_range sg char_bits v) ||
               match convert_character sg (ostream_char v) with
               | Ok r => r =? v
               | Throw _ => false
               end) char_values = true)
    by (destruct sg; vm_compute; reflexivity).
  rewrite forallb_forall in Hall.
  specialize (Hall z (char_values_complete sg z Hr)).
  rewrite Hr in Hall. cbn [negb orb] in Hall.
  change (convert_primitive_to_string (PChar sg) z) with (ostream_char z).
  destruct (convert_character sg (ostream_char z)) as [r|e]; [|discriminate].
  f_equal. lia.
Qed.

(* ================================================================== *)
(** ** The primitive codec *)

Section PrimitiveCodec.
Context `{JL : JsonLibrary} `{CC : CompositeCapability}.

(** C1 (code defect).  The text round trip of a primitive does not hold for
    the character types.  [Serialize] writes the character itself and
    [Deserialize] takes the integral branch: the letter A (65) raises a
    conversion error for [char] and for [unsigned char], and the digit 7
    (55) comes back as the number 7. *)
Theorem C1_character_round_trip_broken :
  Deserialize (TPrim (PChar Signed)) (Serialize (TPrim (PChar Signed)) 65)
    = Throw (invalid_argument "Invalid integer value: A")
  /\ Deserialize (TPrim (PChar Unsigned)) (Serialize (TPrim (PChar Unsigned)) 65)
    = Throw (invalid_argument "Invalid integer value: A")
  /\ Deserialize (TPrim (PChar Signed)) (Serialize (TPrim (PChar Signed)) 55)
    = Ok 7.
Proof. repeat split. Qed.

(** The part of the round trip that does hold: bool, the string types and
    the integral types that are written as numbers. *)
Lemma primitive_round_trip (p : prim) (x : denote_prim p) :
  (forall sg, p <> PChar sg) -> prim_ok p x ->
  Deserialize (TPrim p) (Serialize (TPrim p) x) = Ok x.
Proof.
  intros Hp Hx. destruct p as [| |sg w|sg]; cbn [Deserialize Serialize].
  - apply bool_round_trip.
  - apply string_round_trip.
  - apply integral_round_trip, Hx.
  - now destruct (Hp sg).
Qed.

(** C9.  [Deserialize<StdString>] returns its input unchanged, whatever the
    input is: nothing is parsed, no quote is removed, nothing is thrown. *)
Theorem C9_Deserialize_StdString_identity (input : StdString) :
  Deserialize (TPrim PString) input = Ok input.
Proof. reflexivity. Qed.

Lemma mod_mod_pow2 (a bits : Z) :
  0 < bits <= 64 -> (a mod 2 ^ 64) mod 2 ^ bits = a mod 2 ^ bits.
Proof.
  intros Hb. apply Z.mod_mod_divide.
  exists (2 ^ (64 - bits)). rewrite <- Z.pow_add_r by lia. f_equal. lia.
Qed.

(** The unsigned path on a minus sign and the digits of [n]: [-n] wrapped
    into the type while [stoull] can hold the magnitude, rejected beyond. *)
Lemma convert_integral_negative_literal (bits n : Z) :
  0 < bits <= 64 -> 0 <= n ->
  convert_integral Unsigned bits (String "-" (decimal n))
  = if n <=? ULLONG_MAX then Ok ((- n) mod 2 ^ bits)
    else Throw (invalid_argument
                  ("Invalid integer value: " ++ String "-" (decimal n))).
Proof.
  intros Hb Hn. unfold convert_integral, stoull.
  rewrite strto_minus_decimal by lia.
  destruct (n <=? ULLONG_MAX); [|reflexivity].
  cbn [fmap bind try_catch_rethrow static_cast].
  now rewrite mod_mod_pow2.
Qed.

(** C10, as the code has it.  A minus sign followed by the decimal digits of
    [n] deserializes into every unsigned integral type without a conversion
    error as long as [n] is at most [ULLONG_MAX]: [stoull] accepts it and the
    result is [-n] reduced modulo [2^w] for the width [w] of the type.  A
    larger magnitude is out of range for [stoull] and the literal is rejected
    with the invalid-integer error. *)
Theorem C10_negative_literal_into_unsigned (n : Z) :
  0 <= n ->
  (forall w,
     Deserialize (TPrim (PIntegral Unsigned w)) (String "-" (decimal n))
     = if n <=? ULLONG_MAX then Ok ((- n) mod 2 ^ bits_of w)
       else Throw (invalid_argument
                     ("Invalid integer value: " ++ String "-" (decimal n))))
  /\ Deserialize (TPrim (PChar Unsigned)) (String "-" (decimal n))
     = if n <=? ULLONG_MAX then Ok ((- n) mod 2 ^ char_bits)
       else Throw (invalid_argument
                     ("Invalid integer value: " ++ String "-" (decimal n))).
Proof.
  intros Hn. split; [intros w|]; cbn [Deserialize convert_string_to_primitive];
    apply convert_integral_negative_literal;
    (apply bits_of_bounds || (unfold char_bits; lia) || assumption).
Qed.
End PrimitiveCodec.

(** On the text [-1] an [unsigned int] gets its largest value. *)
Lemma C10_minus_one_witness :
  0 <= 1 /\
  Deserialize (JL := JsonText.library) (CC := Point.capability)
    (TPrim (PIntegral Unsigned W32)) "-1" = Ok (int_max Unsigned 32).
Proof.
  assert (H : 0 <= 1) by lia.
  split; [exact H|].
  exact (proj1 (C10_negative_literal_into_unsigned
                  (JL := JsonText.library) (CC := Point.capability) 1 H) W32).
Defined.

(** C10 as stated fails: the negative decimal literal of magnitude [2^64]
    is rejected with a conversion error. *)
Lemma C10_counterexample :
  Deserialize (JL := JsonText.library) (CC := Point.capability)
    (TPrim (PIntegral Unsigned W32)) "-18446744073709551616"
  = Throw (invalid_argument "Invalid integer value: -18446744073709551616").
Proof. vm_compute. reflexivity. Qed.

(* ================================================================== *)
(** ** The container and optional codecs *)

Lemma empty_true_iff (s : string) : empty s = true <-> s = EmptyString.
Proof. destruct s; simpl; split; intros H; congruence. Qed.

Lemma isNull_true_iff (v : JsonVariant) : isNull v = true <-> v = JNull.
Proof. destruct v; simpl; split; intros H; congruence. Qed.

Section ContainerCodec.
Context `{JL : JsonLibrary} `{CC : CompositeCapability}.

(** C4.  When the text parses to a JSON array whose length is not the
    declared size [N] of the [std::array], [Deserialize] throws the size
    mismatch error; no container comes back, truncated, padded or
    otherwise, and no element is read. *)
Theorem C4_array_size_mismatch (N : nat) (e : elem) (input : StdString)
    (elements : list JsonVariant) :
  deserializeJson (c_str input) = ParseOk (JArray elements) ->
  List.length elements <> N ->
  Deserialize (TSeq (Array N) e) input
  = Throw (invalid_argument
             ("JSON array size (" ++ to_string (List.length elements)
              ++ ") does not match Array size (" ++ to_string N ++ ")")).
Proof.
  intros Hparse Hlen.
  cbn [Deserialize]. unfold deserialize_sequential_container.
  rewrite Hparse. cbn [is_JsonArray negb as_JsonArray].
  destruct (Nat.eqb_spec (List.length elements) N) as [Heq|Hne];
    [contradiction | reflexivity].
Qed.

(** C5.  The top-level category is checked before any element is looked at:
    a parsed document that is not an array makes every sequential container
    fail with the expected-array error, and one that is not an object makes
    every associative container fail with the expected-object error. *)
Theorem C5_top_level_category_checked (input : StdString) (doc : JsonVariant) :
  deserializeJson (c_str input) = ParseOk doc ->
  (is_JsonArray doc = false ->
   forall k e,
     Deserialize (TSeq k e) input
     = Throw (invalid_argument ("Expected JSON array, got: " ++ input)))
  /\ (is_JsonObject doc = false ->
      forall mk K V,
        Deserialize (TAssoc mk K V) input
        = Throw (invalid_argument ("Expected JSON object, got: " ++ input))).
Proof.
  intros Hparse. split; intros Hcat; intros; cbn [Deserialize].
  - unfold deserialize_sequential_container. now rewrite Hparse, Hcat.
  - unfold deserialize_associative_container. now rewrite Hparse, Hcat.
Qed.

(** A text that does not parse fails before the category is looked at. *)
Lemma unparsable_container_text (input : StdString) (err : DeserializationError) :
  deserializeJson (c_str input) = ParseError err ->
  (forall k e,
     Deserialize (TSeq k e) input
     = Throw (invalid_argument ("Failed to parse JSON: " ++ input)))
  /\ (forall mk K V,
        Deserialize (TAssoc mk K V) input
        = Throw (invalid_argument ("Failed to parse JSON: " ++ input))).
Proof.
  intros Hparse. split; intros; cbn [Deserialize].
  - unfold deserialize_sequential_container. now rewrite Hparse.
  - unfold deserialize_associative_container. now rewrite Hparse.
Qed.

(** The value taken straight from a document node that holds a [p] is the
    one [Deserialize] of [p] reads from the text of that value. *)
Lemma node_payload_read (p : prim) (doc : JsonVariant) :
  variant_is p doc = true ->
  convert_string_to_primitive p (node_payload p doc) = Ok (variant_as p doc).
Proof.
  destruct p as [| |sg w|sg]; destruct doc; simpl; intros H; try discriminate.
  - apply bool_round_trip.
  - reflexivity.
  - rewrite H.
    apply convert_integral_ostream_int; [apply bits_of_bounds | assumption].
  - rewrite H.
    apply convert_integral_ostream_int; [unfold char_bits; lia | assumption].
Qed.

Lemma extracted_value_has_text (p : prim) (doc : JsonVariant) :
  variant_is p doc = true ->
  exists payload,
    convert_string_to_primitive p payload = Ok (variant_as p doc).
Proof. intros H. exists (node_payload p doc). now apply node_payload_read. Qed.

(** For a primitive [T] and a text that parses to a node other than null:
    the value is taken from the node when the node holds a [T], and the raw
    text goes to [Deserialize<T>] when it does not. *)
Lemma optional_primitive_from_node (p : prim) (input : StdString)
    (doc : JsonVariant) :
  input <> EmptyString -> input <> "null" -> input <> "{}" ->
  deserializeJson (c_str input) = ParseOk doc ->
  doc <> JNull ->
  Deserialize (TOptional (TPrim p)) input
  = if variant_is p doc then Ok (Some (variant_as p doc))
    else fmap Some (Deserialize (TPrim p) input).
Proof.
  intros H1 H2 H3 Hparse Hnn.
  cbn [Deserialize]. unfold Deserialize_optional.
  replace (empty input) with false
    by (destruct input; [contradiction | reflexivity]).
  apply String.eqb_neq in H2, H3. rewrite H2, H3, Hparse. cbn [orb].
  replace (isNull doc) with false
    by (destruct doc; [contradiction | ..]; reflexivity).
  destruct p as [| |sg w|sg].
  - now destruct (variant_is PBool doc).
  - destruct doc; reflexivity.
  - now destruct (variant_is (PIntegral sg w) doc).
  - now destruct (variant_is (PChar sg) doc).
Qed.

(** C3.  [Deserialize<optional<T>>] is absent on the empty text, on the
    texts [null] and [{}], and on a text that parses to a null document.
    On any other input it is never absent: it is the outcome of
    [Deserialize<T>] on one payload, wrapped as a present value (an
    exception of the inner call propagates).  The payload is the input
    itself when the input does not parse; the re-serialized document when it
    parses and [T] is not primitive; and for a primitive [T] the text of the
    value the node holds when the node holds a [T] (the result is then that
    value, taken from the node), the input itself when it does not. *)
Theorem C3_optional_absent_or_inner (T : ctype) (input : StdString) :
  (input = EmptyString \/ input = "null" \/ input = "{}" \/
   deserializeJson (c_str input) = ParseOk JNull ->
   Deserialize (TOptional T) input = Ok None)
  /\ (input <> EmptyString -> input <> "null" -> input <> "{}" ->
      deserializeJson (c_str input) <> ParseOk JNull ->
      (exists payload,
         Deserialize (TOptional T) input = fmap Some (Deserialize T payload))
      /\ (forall err, deserializeJson (c_str input) = ParseError err ->
            Deserialize (TOptional T) input = fmap Some (Deserialize T input))
      /\ (forall doc, deserializeJson (c_str input) = ParseOk doc ->
            is_primitive_type T = false ->
            Deserialize (TOptional T) input
            = fmap Some (Deserialize T (serializeJson doc)))
      /\ (forall doc, deserializeJson (c_str input) = ParseOk doc ->
            match T as t return result (option (denote t)) -> Prop with
            | TPrim p => fun outcome =>
                if variant_is p doc
                then outcome
                     = fmap Some (Deserialize (TPrim p) (node_payload p doc))
                     /\ outcome = Ok (Some (variant_as p doc))
                else outcome = fmap Some (Deserialize (TPrim p) input)
            | _ => fun _ => True
            end (Deserialize (TOptional T) input))).
Proof.
  split.
  - cbn [Deserialize]. unfold Deserialize_optional.
    intros [-> | [-> | [-> | Hnull]]]; try reflexivity.
    destruct (empty input || String.eqb input "null" || String.eqb input "{}");
      [reflexivity|].
    now rewrite Hnull.
  - intros H1 H2 H3 H4.
    assert (Hnode : forall doc, deserializeJson (c_str input) = ParseOk doc ->
              match T as t return result (option (denote t)) -> Prop with
              | TPrim p => fun outcome =>
                  if variant_is p doc
                  then outcome
                       = fmap Some (Deserialize (TPrim p) (node_payload p doc))
                       /\ outcome = Ok (Some (variant_as p doc))
                  else outcome = fmap Some (Deserialize (TPrim p) input)
              | _ => fun _ => True
              end (Deserialize (TOptional T) input)).
    { intros doc Hparse. destruct T as [p| | | |]; try exact I.
      assert (Hnn : doc <> JNull) by (intros ->; contradiction).
      rewrite (optional_primitive_from_node p input doc H1 H2 H3 Hparse Hnn).
      destruct (variant_is p doc) eqn:E; [|reflexivity].
      split; [|reflexivity].
      cbn [Deserialize]. now rewrite (node_payload_read p doc E). }
    assert (Hlit : empty input || String.eqb input "null"
                   || String.eqb input "{}" = false).
    { apply orb_false_iff. split; [apply orb_false_iff; split|].
      - destruct (empty input) eqn:E; [|reflexivity].
        apply empty_true_iff in E. contradiction.
      - now apply String.eqb_neq.
      - now apply String.eqb_neq. }
    split; [|split; [|split; [|exact Hnode]]].
    + destruct (deserializeJson (c_str input)) as [doc|err] eqn:Hparse.
      * specialize (Hnode doc eq_refl).
        destruct T as [p| | | |];
          try (cbn [Deserialize]; unfold Deserialize_optional;
               rewrite Hlit, Hparse;
               replace (isNull doc) with false
                 by (destruct doc; [contradiction | ..]; reflexivity);
               eexists; reflexivity).
        destruct (variant_is p doc); [destruct Hnode as [Hnode _]|]; eauto.
      * cbn [Deserialize]. unfold Deserialize_optional.
        rewrite Hlit, Hparse. eexists; reflexivity.
    + intros err Herr. cbn [Deserialize]. unfold Deserialize_optional.
      now rewrite Hlit, Herr.
    + intros doc Hparse Hprim. cbn [Deserialize]. unfold Deserialize_optional.
      rewrite Hlit, Hparse.
      replace (isNull doc) with false
        by (destruct doc; [contradiction | ..]; reflexivity).
      destruct T as [p| | | |]; try reflexivity. discriminate.
Qed.
End ContainerCodec.

Lemma C4_witness :
  let input := "[1,2,3]" in
  let elements := [JInt 1; JInt 2; JInt 3] in
  deserializeJson (JsonLibrary := JsonText.library) (c_str input)
    = ParseOk (JArray elements)
  /\ List.length elements <> 2%nat
  /\ Deserialize (JL := JsonText.library) (CC := Point.capability)
       (TSeq (Array 2) (EPrim (PIntegral Signed W32))) input
     = Throw (invalid_argument
                "JSON array size (3) does not match Array size (2)").
Proof.
  intros input elements.
  assert (H1 : deserializeJson (JsonLibrary := JsonText.library) (c_str input)
               = ParseOk (JArray elements)) by (vm_compute; reflexivity).
  assert (H2 : List.length elements <> 2%nat) by (simpl; discriminate).
  split; [exact H1|]. split; [exact H2|].
  exact (C4_array_size_mismatch (JL := JsonText.library)
           (CC := Point.capability) 2 (EPrim (PIntegral Signed W32))
           input elements H1 H2).
Defined.

Lemma C5_witness :
  let input := "5" in
  deserializeJson (JsonLibrary := JsonText.library) (c_str input)
    = ParseOk (JInt 5)
  /\ Deserialize (JL := JsonText.library) (CC := Point.capability)
       (TSeq Vector (EPrim (PIntegral Signed W32))) input
     = Throw (invalid_argument "Expected JSON array, got: 5")
  /\ Deserialize (JL := JsonText.library) (CC := Point.capability)
       (TAssoc Map (EPrim PString) (EPrim (PIntegral Signed W32))) input
     = Throw (invalid_argument "Expected JSON object, got: 5").
Proof.
  intros input.
  assert (H1 : deserializeJson (JsonLibrary := JsonText.library) (c_str input)
               = ParseOk (JInt 5)) by (vm_compute; reflexivity).
  pose proof (C5_top_level_category_checked (JL := JsonText.library)
                (CC := Point.capability) input (JInt 5) H1) as [Hseq Hmap].
  split; [exact H1|]. split.
  - exact (Hseq eq_refl Vector (EPrim (PIntegral Signed W32))).
  - exact (Hmap eq_refl Map (EPrim PString) (EPrim (PIntegral Signed W32))).
Defined.

Lemma C3_witness :
  Deserialize (JL := JsonText.library) (CC := Point.capability)
    (TOptional (TPrim (PIntegral Signed W32))) "null" = Ok None
  /\ Deserialize (JL := JsonText.library) (CC := Point.capability)
       (TOptional (TPrim (PIntegral Signed W32))) " null " = Ok None
  /\ (exists payload,
        Deserialize (JL := JsonText.library) (CC := Point.capability)
          (TOptional (TPrim PString)) "hello"
        = fmap Some (Deserialize (JL := JsonText.library)
                       (CC := Point.capability) (TPrim PString) payload))
  /\ Deserialize (JL := JsonText.library) (CC := Point.capability)
       (TOptional (TPrim (PIntegral Signed W32))) " 42 " = Ok (Some 42)
  /\ Deserialize (JL := JsonText.library) (CC := Point.capability)
       (TOptional (TPrim (PIntegral Signed W16))) "70000" = Ok (Some 4464).
Proof.
  split; [|split; [|split; [|split]]].
  - apply (proj1 (C3_optional_absent_or_inner (JL := JsonText.library)
                    (CC := Point.capability)
                    (TPrim (PIntegral Signed W32)) "null")).
    right. left. reflexivity.
  - apply (proj1 (C3_optional_absent_or_inner (JL := JsonText.library)
                    (CC := Point.capability)
                    (TPrim (PIntegral Signed W32)) " null ")).
    right. right. right. vm_compute. reflexivity.
  - apply (proj2 (C3_optional_absent_or_inner (JL := JsonText.library)
                    (CC := Point.capability) (TPrim PString) "hello"));
      discriminate.
  - destruct (proj2 (C3_optional_absent_or_inner (JL := JsonText.library)
                       (CC := Point.capability)
                       (TPrim (PIntegral Signed W32)) " 42 "))
      as (_ & _ & _ & Hnode); try discriminate.
    specialize (Hnode (JInt 42) eq_refl). cbv beta iota in Hnode.
    change (variant_is (PIntegral Signed W32) (JInt 42)) with true in Hnode.
    cbv iota in Hnode. exact (proj2 Hnode).
  - destruct (proj2 (C3_optional_absent_or_inner (JL := JsonText.library)
                       (CC := Point.capability)
                       (TPrim (PIntegral Signed W16)) "70000"))
      as (_ & _ & _ & Hnode); try discriminate.
    specialize (Hnode (JInt 70000) eq_refl). cbv beta iota in Hnode.
    change (variant_is (PIntegral Signed W16) (JInt 70000)) with false
      in Hnode.
    cbv iota in Hnode. rewrite Hnode. vm_compute. reflexivity.
Defined.

(* ================================================================== *)
(** ** Container round trips *)

Lemma c_str_idempotent (s : string) : c_str (c_str s) = c_str s.
Proof.
  induction s as [|c s IH]; simpl; [reflexivity|].
  destruct (code c =? 0) eqn:E; simpl; [reflexivity|].
  now rewrite E, IH.
Qed.

Section SequentialRoundTrip.
Context `{JL : JsonLibrary} `{CC : CompositeCapability}.

Lemma primitive_node_read_back (p : prim) (x : denote_prim p) :
  node_survives p x ->
  deserialized_value (EPrim p) (primitive_node p x) = Ok x.
Proof.
  assert (Hint : forall sg bits z, 0 < bits <= 64 ->
            in_range sg bits z = true -> z <= LLONG_MAX ->
            static_cast sg bits
              (as_integral sg 64 (JInt (static_cast Signed 64 z))) = z).
  { intros sg bits z Hb Hr Hmax.
    pose proof (in_range_widen _ _ _ Hb Hr) as H64.
    assert (Hs : in_range Signed 64 z = true).
    { unfold in_range, int_min, int_max, LLONG_MAX in *.
      destruct sg; simpl in *; lia. }
    rewrite (static_cast_in_range Signed 64 z) by (lia || assumption).
    cbn [as_integral]. rewrite H64.
    apply static_cast_in_range; [lia | assumption]. }
  destruct p as [| |sg w|sg]; simpl; intros Hx.
  - reflexivity.
  - now rewrite Hx.
  - destruct Hx as [Hr Hmax]. f_equal.
    apply Hint; [apply bits_of_bounds | assumption | assumption].
  - f_equal. apply Hint; [unfold char_bits; lia | assumption |].
    unfold in_range, int_min, int_max, char_bits, LLONG_MAX in *.
    destruct sg; simpl in *; lia.
Qed.

Lemma set_insert_last {A} (ltb : A -> A -> bool) (v : A) (l : list A) :
  Forall (fun x => ltb x v = true /\ ltb v x = false) l ->
  set_insert ltb v l = (l ++ [v])%list.
Proof.
  induction 1 as [|x l [Hlt Hgt] _ IH]; simpl; [reflexivity|].
  now rewrite Hgt, Hlt, IH.
Qed.

Lemma uset_insert_last {A} (eqb : A -> A -> bool) (v : A) (l : list A) :
  Forall (fun x => eqb x v = false) l ->
  uset_insert eqb v l = (l ++ [v])%list.
Proof.
  induction 1 as [|x l Hne _ IH]; simpl; [reflexivity|].
  now rewrite Hne, IH.
Qed.

Lemma array_set_middle {A} (done rest : list A) (old v : A) :
  array_set (List.length done) v (done ++ old :: rest)
  = (done ++ v :: rest)%list.
Proof.
  induction done as [|x done IH]; simpl; [reflexivity | now rewrite IH].
Qed.

Lemma StronglySorted_app_head {A} (R : A -> A -> Prop) (l1 l2 : list A) (v : A) :
  StronglySorted R (l1 ++ v :: l2) -> Forall (fun x => R x v) l1.
Proof.
  induction l1 as [|x l1 IH]; simpl; intros H; [constructor|].
  apply StronglySorted_inv in H as [Hs Hx].
  constructor; [|now apply IH].
  rewrite Forall_forall in Hx. apply Hx, in_or_app. right. now left.
Qed.

Lemma ForallOrdPairs_app_head {A} (R : A -> A -> Prop) (l1 l2 : list A) (v : A) :
  ForallOrdPairs R (l1 ++ v :: l2) -> Forall (fun x => R x v) l1.
Proof.
  induction l1 as [|x l1 IH]; simpl; intros H; [constructor|].
  inversion H as [|? ? Hx Hs]; subst.
  constructor; [|now apply IH].
  rewrite Forall_forall in Hx. apply Hx, in_or_app. right. now left.
Qed.

Lemma add_elements_append (k : seq_kind) (p : prim) (c : list (denote_prim p)) :
  forall (index : nat) (acc : list (denote_prim p)),
    Forall (node_survives p) c ->
    lands_last k p acc c ->
    add_elements k (EPrim p) (map (primitive_node p) c) index acc
    = Ok (acc ++ c)%list.
Proof.
  induction c as [|v c IH]; intros index acc Hs Hk; simpl.
  - now rewrite app_nil_r.
  - inversion Hs as [|? ? Hv Hc]; subst.
    unfold deserialize_and_add_element.
    rewrite (primitive_node_read_back p v Hv). cbn [bind].
    assert (Hadd : add_to_container k (EPrim p) acc v index = (acc ++ [v])%list).
    { destruct k; simpl in Hk |- *; try reflexivity.
      - apply set_insert_last.
        exact (StronglySorted_app_head _ _ _ _ Hk).
      - apply uset_insert_last.
        exact (ForallOrdPairs_app_head _ _ _ _ Hk).
      - contradiction. }
    rewrite Hadd, IH; [now rewrite <- app_assoc | assumption |].
    destruct k; simpl in Hk |- *; try exact I; try contradiction;
      now rewrite <- app_assoc.
Qed.

Lemma add_elements_array (N : nat) (p : prim) (c : list (denote_prim p)) :
  forall (done rest : list (denote_prim p)),
    Forall (node_survives p) c ->
    (List.length c <= List.length rest)%nat ->
    add_elements (Array N) (EPrim p) (map (primitive_node p) c)
      (List.length done) (done ++ rest)%list
    = Ok (done ++ c ++ skipn (List.length c) rest)%list.
Proof.
  induction c as [|v c IH]; intros done rest Hs Hlen; simpl.
  - reflexivity.
  - inversion Hs as [|? ? Hv Hc]; subst.
    destruct rest as [|old rest]; [simpl in Hlen; lia|].
    unfold deserialize_and_add_element.
    rewrite (primitive_node_read_back p v Hv). cbn [bind add_to_container].
    match goal with
    | |- context [(?a <? ?b)%nat] =>
        replace (a <? b)%nat with true
          by (symmetry; apply Nat.ltb_lt; rewrite length_app; simpl; lia)
    end.
    rewrite array_set_middle.
    assert (Hl : (List.length c <= List.length rest)%nat)
      by (simpl in Hlen; lia).
    pose proof (IH (done ++ [v])%list rest Hc Hl) as H.
    rewrite <- !app_assoc in H. simpl in H.
    rewrite length_app in H. simpl in H.
    rewrite Nat.add_1_r in H. exact H.
Qed.

Lemma prim_eqb_refl (p : prim) (x : denote_prim p) : prim_eqb p x x = true.
Proof.
  destruct p; simpl;
    [apply Bool.eqb_reflx | apply String.eqb_refl
     | apply Z.eqb_refl | apply Z.eqb_refl].
Qed.

Lemma unordered_shape_NoDup (p : prim) (c : list (denote_prim p)) :
  ForallOrdPairs (fun a b => prim_eqb p a b = false) c -> NoDup c.
Proof.
  induction 1 as [|x c Hx _ IH]; constructor; [|assumption].
  intros Hin. rewrite Forall_forall in Hx.
  pose proof (Hx x Hin) as H. rewrite prim_eqb_refl in H. discriminate.
Qed.

(** The list read back from the written array is the list written (for the
    unordered set: in the order the list model takes). *)
Lemma sequence_written_read_back (k : seq_kind) (p : prim)
    (c : list (denote_prim p)) :
  deserializeJson (c_str (serializeJson (JArray (map (primitive_node p) c))))
    = ParseOk (JArray (map (primitive_node p) c)) ->
  Forall (node_survives p) c ->
  container_shape k (EPrim p) c ->
  Deserialize (TSeq k (EPrim p)) (Serialize (TSeq k (EPrim p)) c) = Ok c.
Proof.
  intros Hread Hs Hk.
  cbn [Deserialize Serialize].
  unfold deserialize_sequential_container, serialize_sequential_container.
  change (added_element (EPrim p)) with (primitive_node p).
  cbn [denote_elem]. rewrite c_str_idempotent, Hread.
  cbn [is_JsonArray negb as_JsonArray].
  assert (Hpush : forall k', lands_last k' p [] c ->
            add_elements k' (EPrim p) (map (primitive_node p) c) 0 [] = Ok c).
  { intros k' Hk'. now rewrite add_elements_append. }
  destruct k as [| | | | |N]; try (apply Hpush; exact Hk).
  simpl in Hk. rewrite length_map, Hk, Nat.eqb_refl. cbn [negb].
  change (new_container (Array N) (EPrim p))
    with ([] ++ repeat (prim_default p) N)%list.
  change 0%nat with (@List.length (denote_prim p) []) at 1.
  rewrite add_elements_array by (rewrite ?repeat_length; (assumption || lia)).
  rewrite skipn_all2 by (rewrite repeat_length; lia).
  now rewrite app_nil_r.
Qed.

(** Sequential containers of primitives do come back whenever the library
    reads back the array it wrote and every element survives in its node:
    element by element and in order for vector, list, deque, array and the
    sorted set; with the same members and none of them twice for the
    unordered set, whose order is not specified. *)
Theorem sequential_round_trip (k : seq_kind) (p : prim)
    (c : list (denote_prim p)) :
  deserializeJson (c_str (serializeJson (JArray (map (primitive_node p) c))))
    = ParseOk (JArray (map (primitive_node p) c)) ->
  Forall (node_survives p) c ->
  container_shape k (EPrim p) c ->
  match k with
  | UnorderedSet =>
      exists c',
        Deserialize (TSeq k (EPrim p)) (Serialize (TSeq k (EPrim p)) c)
        = Ok c'
        /\ NoDup c' /\ forall x, In x c' <-> In x c
  | _ => Deserialize (TSeq k (EPrim p)) (Serialize (TSeq k (EPrim p)) c) = Ok c
  end.
Proof.
  intros Hread Hs Hk.
  pose proof (sequence_written_read_back k p c Hread Hs Hk) as H.
  destruct k; try exact H.
  exists c. split; [exact H|]. split; [|tauto].
  exact (unordered_shape_NoDup p c Hk).
Qed.
End SequentialRoundTrip.

Lemma sequential_round_trip_example :
  let T := TSeq Vector (EPrim (PIntegral Signed W32)) in
  Deserialize (JL := JsonText.library) (CC := Point.capability) T
    (Serialize (JL := JsonText.library) (CC := Point.capability) T [3; -1; 2])
  = Ok [3; -1; 2].
Proof.
  apply (sequential_round_trip (JL := JsonText.library)
           (CC := Point.capability) Vector (PIntegral Signed W32) [3; -1; 2]).
  - vm_compute. reflexivity.
  - repeat (constructor; [split; [reflexivity | vm_compute; discriminate]|]).
    constructor.
  - exact I.
Qed.

Section AssociativeRoundTrip.
Context `{JL : JsonLibrary} `{CC : CompositeCapability}.

(** A string-to-string map of one pair.  The mapped string is written to the
    object as whatever its text parses to, and read back with
    [as<const char*>()]: it survives only when it parses to a string node
    holding the same characters. *)
Lemma map_string_value_reparsed (mk : map_kind) (key value : string)
    (d : JsonVariant) :
  let M := TAssoc mk (EPrim PString) (EPrim PString) in
  c_str key = key ->
  deserializeJson (c_str value) = ParseOk d ->
  deserializeJson (c_str (serializeJson (JObject [(key, d)])))
    = ParseOk (JObject [(key, d)]) ->
  Deserialize M (Serialize M [(key, value)])
  = Ok [(key, match as_cstr d with
              | Some str => str
              | None => EmptyString
              end)].
Proof.
  intros M Hkey Hvalue Hread. subst M.
  cbn [Deserialize Serialize].
  unfold deserialize_associative_container, serialize_associative_container.
  cbn [fold_left fst snd Serialize_elem convert_primitive_to_string
       stored_value set_member].
  rewrite Hvalue, Hkey, c_str_idempotent, Hread.
  cbn [is_JsonObject negb as_JsonObject add_pairs deserialized_key
       deserialized_value bind].
  destruct mk; reflexivity.
Qed.

(** A mapped string that does not parse as JSON is written as a string node
    and does come back. *)
Lemma map_string_value_kept (mk : map_kind) (key value : string)
    (err : DeserializationError) :
  let M := TAssoc mk (EPrim PString) (EPrim PString) in
  c_str key = key ->
  c_str value = value ->
  deserializeJson (c_str value) = ParseError err ->
  deserializeJson (c_str (serializeJson (JObject [(key, JString value)])))
    = ParseOk (JObject [(key, JString value)]) ->
  Deserialize M (Serialize M [(key, value)]) = Ok [(key, value)].
Proof.
  intros M Hkey Hnul Hvalue Hread. subst M.
  cbn [Deserialize Serialize].
  unfold deserialize_associative_container, serialize_associative_container.
  cbn [fold_left fst snd Serialize_elem convert_primitive_to_string
       stored_value set_member primitive_node].
  rewrite Hvalue, Hkey, Hnul, c_str_idempotent, Hread.
  cbn [is_JsonObject negb as_JsonObject add_pairs deserialized_key
       deserialized_value bind].
  destruct mk; reflexivity.
Qed.
End AssociativeRoundTrip.

(** C2 (code defect).  The round trip of an associative container does not
    reproduce its pairs: the map from the key k to the string 123 is written
    as an object whose member is the number 123 and comes back with the
    empty string under k.  The sequential path, which adds the string to the
    array directly, returns the same string from a vector. *)
Theorem C2_map_round_trip_loses_value :
  let M := TAssoc Map (EPrim PString) (EPrim PString) in
  let V := TSeq Vector (EPrim PString) in
  Serialize (JL := JsonText.library) (CC := Point.capability) M [("k", "123")]
    = "{" ++ JsonText.write_string "k" ++ ":123}"
  /\ Deserialize (JL := JsonText.library) (CC := Point.capability) M
       (Serialize (JL := JsonText.library) (CC := Point.capability) M
          [("k", "123")])
     = Ok [("k", EmptyString)]
  /\ Deserialize (JL := JsonText.library) (CC := Point.capability) V
       (Serialize (JL := JsonText.library) (CC := Point.capability) V ["123"])
     = Ok ["123"].
Proof.
  intros M V. split; [|split].
  - vm_compute. reflexivity.
  - apply (map_string_value_reparsed (JL := JsonText.library)
             (CC := Point.capability) Map "k" "123" (JInt 123));
      vm_compute; reflexivity.
  - vm_compute. reflexivity.
Qed.

(** An unsigned 64-bit element above [LLONG_MAX] is added to the array as a
    negative [int64_t] and read back with [as<uint64_t>()], which does not
    hold a negative number. *)
Lemma vector_of_large_unsigned_lost :
  let V := TSeq Vector (EPrim (PIntegral Unsigned W64)) in
  Deserialize (JL := JsonText.library) (CC := Point.capability) V
    (Serialize (JL := JsonText.library) (CC := Point.capability) V
       [ULLONG_MAX])
  = Ok [0].
Proof. vm_compute. reflexivity. Qed.

(* ================================================================== *)
(** ** The field validators *)

Lemma find_first_not_of_None (set s : string) :
  find_first_not_of set s = None <-> all_in set s = true.
Proof.
  induction s as [|c s IH]; simpl; [tauto|].
  destruct (mem_char c set); simpl; [|split; discriminate].
  rewrite <- IH. destruct (find_first_not_of set s); simpl; split; congruence.
Qed.

Lemma find_first_not_of_Some (set s : string) (n : nat) :
  find_first_not_of set s = Some n ->
  exists c r, erase_front n s = String c r /\ mem_char c set = false.
Proof.
  revert n. induction s as [|c s IH]; simpl; intros n H; [discriminate|].
  destruct (mem_char c set) eqn:E.
  - destruct (find_first_not_of set s) as [m|]; simpl in H; [|discriminate].
    inversion H; subst. simpl. now apply IH.
  - inversion H; subst. simpl. eauto.
Qed.

Lemma find_last_not_of_None (set s : string) :
  find_last_not_of set s = None -> all_in set s = true.
Proof.
  induction s as [|c s IH]; simpl; [reflexivity|].
  destruct (find_last_not_of set s); [discriminate|].
  destruct (mem_char c set); [intros _; now apply IH | discriminate].
Qed.

(** The trimmed value is empty exactly when the value consists of spaces,
    tabs, newlines and carriage returns only. *)
Lemma trim_empty_iff (s : string) :
  trim s = EmptyString <-> all_in whitespace s = true.
Proof.
  unfold trim.
  destruct (find_first_not_of whitespace s) as [start|] eqn:E.
  - destruct (find_first_not_of_Some _ _ _ E) as (c & r & Herase & Hc).
    rewrite Herase. cbn [empty negb].
    assert (Hns : all_in whitespace s = false).
    { destruct (all_in whitespace s) eqn:A; [|reflexivity].
      apply find_first_not_of_None in A. congruence. }
    rewrite Hns.
    destruct (find_last_not_of whitespace (String c r)) as [e|] eqn:L.
    + rewrite Nat.add_1_r. simpl. split; discriminate.
    + apply find_last_not_of_None in L. cbn [all_in] in L. rewrite Hc in L.
      discriminate.
  - apply find_first_not_of_None in E. rewrite E. simpl. tauto.
Qed.

(** The four appends of a failing validator, as one text. *)
Lemma appended_message (errors tag fieldName tail : string) :
  (((separate errors ++ tag) ++ fieldName) ++ tail)%string
  = (errors ++ (if empty errors then EmptyString else separator)
       ++ tag ++ fieldName ++ tail)%string.
Proof.
  unfold separate. destruct errors as [|c errors]; cbn [empty negb].
  - simpl. now rewrite append_assoc.
  - now rewrite !append_assoc.
Qed.

Lemma ValidateNotNull_spec (doc : JsonVariant) (fieldName : string)
    (errors : StdString) :
  ValidateNotNull doc fieldName errors
  = if isNull (member doc fieldName)
    then (false, errors ++ (if empty errors then EmptyString else separator)
                   ++ NotNull_message fieldName)%string
    else (true, errors).
Proof.
  unfold ValidateNotNull, NotNull_message.
  destruct (isNull (member doc fieldName)); [|reflexivity].
  now rewrite appended_message.
Qed.

Lemma ValidateNotBlank_spec (doc : JsonVariant) (fieldName : string)
    (errors : StdString) :
  ValidateNotBlank doc fieldName errors
  = if isNull (member doc fieldName)
    then Some (false, errors ++ (if empty errors then EmptyString else separator)
                        ++ NotBlank_missing_message fieldName)%string
    else
      match member doc fieldName with
      | JString fieldValue =>
          if all_in whitespace fieldValue
          then Some (false, errors
                            ++ (if empty errors then EmptyString else separator)
                            ++ NotBlank_blank_message fieldName)%string
          else Some (true, errors)
      | _ => None
      end.
Proof.
  unfold ValidateNotBlank, NotBlank_missing_message, NotBlank_blank_message.
  destruct (isNull (member doc fieldName)); [now rewrite appended_message|].
  destruct (member doc fieldName) as [| | |s| |]; try reflexivity.
  cbn [as_cstr].
  destruct (all_in whitespace s) eqn:A.
  - apply trim_empty_iff in A. rewrite A. cbn [empty].
    now rewrite appended_message.
  - destruct (trim s) eqn:T; [|reflexivity].
    apply trim_empty_iff in T. congruence.
Qed.

Lemma ValidateNotEmpty_spec (doc : JsonVariant) (fieldName : string)
    (errors : StdString) :
  let failed message :=
    (false, errors ++ (if empty errors then EmptyString else separator)
              ++ message)%string in
  ValidateNotEmpty doc fieldName errors
  = match member doc fieldName with
    | JNull => failed (NotEmpty_missing_message fieldName)
    | JString EmptyString => failed (NotEmpty_string_message fieldName)
    | JArray [] => failed (NotEmpty_array_message fieldName)
    | JObject [] => failed (NotEmpty_map_message fieldName)
    | _ => (true, errors)
    end.
Proof.
  intros failed. subst failed.
  unfold ValidateNotEmpty, NotEmpty_missing_message, NotEmpty_string_message,
    NotEmpty_array_message, NotEmpty_map_message.
  destruct (member doc fieldName) as [|b|z|s|l|ms]; cbn.
  - now rewrite appended_message.
  - reflexivity.
  - reflexivity.
  - destruct s; cbn; [now rewrite appended_message | reflexivity].
  - destruct l; cbn; [now rewrite appended_message | reflexivity].
  - destruct ms; cbn; [now rewrite appended_message | reflexivity].
Qed.

(** C6, as the code has it.  Failing on a null or missing field,
    [ValidateNotBlank] appends the text of [ValidateNotNull] with its own
    tag, NotBlank, in place of NotNull; failing on a string that trims to
    empty it appends the cannot-be-empty-or-blank text.  Either text follows
    the separator when the log was not empty. *)
Theorem C6_NotBlank_messages (doc : JsonVariant) (fieldName : string)
    (errors : StdString) :
  let sep := if empty errors then EmptyString else separator in
  (isNull (member doc fieldName) = true ->
   ValidateNotBlank doc fieldName errors
   = Some (false,
           (errors ++ sep ++ "NotBlank field '" ++ fieldName
            ++ "' is required but was null or missing")%string)
   /\ ValidateNotNull doc fieldName errors
      = (false,
         (errors ++ sep ++ "NotNull field '" ++ fieldName
          ++ "' is required but was null or missing")%string))
  /\ (forall fieldValue,
        member doc fieldName = JString fieldValue ->
        trim fieldValue = EmptyString ->
        ValidateNotBlank doc fieldName errors
        = Some (false,
                (errors ++ sep ++ "NotBlank field '" ++ fieldName
                 ++ "' cannot be empty or blank")%string)).
Proof.
  intros sep. subst sep. split.
  - intros Hnull.
    rewrite ValidateNotBlank_spec, ValidateNotNull_spec, Hnull. now split.
  - intros fieldValue Hmember Hblank.
    rewrite ValidateNotBlank_spec, Hmember. cbn [isNull].
    apply trim_empty_iff in Hblank. now rewrite Hblank.
Qed.

Lemma C6_witness :
  let doc := JObject [("name", JString "  ")] in
  isNull (member doc "age") = true
  /\ ValidateNotBlank doc "age" "earlier"
     = Some (false,
             ("earlier" ++ separator
              ++ "NotBlank field 'age' is required but was null or missing")%string)
  /\ member doc "name" = JString "  "
  /\ trim "  " = EmptyString
  /\ ValidateNotBlank doc "name" EmptyString
     = Some (false, "NotBlank field 'name' cannot be empty or blank").
Proof.
  intros doc.
  pose proof (C6_NotBlank_messages doc "age" "earlier") as [Hmissing _].
  pose proof (C6_NotBlank_messages doc "name" EmptyString) as [_ Hblank].
  split; [reflexivity|]. split; [exact (proj1 (Hmissing eq_refl))|].
  split; [reflexivity|]. split; [reflexivity|].
  exact (Hblank "  " eq_refl eq_refl).
Defined.

(** C6 as stated fails: on a document without the field, the message
    [ValidateNotBlank] appends is not the one [ValidateNotNull] appends. *)
Lemma C6_counterexample :
  isNull (member (JObject []) "name") = true
  /\ ValidateNotNull (JObject []) "name" EmptyString
     = (false, "NotNull field 'name' is required but was null or missing")
  /\ ValidateNotBlank (JObject []) "name" EmptyString
     = Some (false, "NotBlank field 'name' is required but was null or missing")
  /\ ValidateNotBlank (JObject []) "name" EmptyString
     <> Some (ValidateNotNull (JObject []) "name" EmptyString).
Proof. repeat split. discriminate. Qed.

(** C7.  [ValidateNotEmpty] returns false exactly on a null or missing
    field, an empty string, an empty array and an empty object; the message
    says cannot be empty for the string, (array/collection) for the array and
    (map) for the object; in every other case, a number or a boolean among
    them, it returns true and leaves the log as it was. *)
Theorem C7_ValidateNotEmpty_cases (doc : JsonVariant) (fieldName : string)
    (errors : StdString) :
  let value := member doc fieldName in
  let sep := if empty errors then EmptyString else separator in
  let outcome := ValidateNotEmpty doc fieldName errors in
  (fst outcome = false <->
   isNull value = true \/ value = JString EmptyString \/
   value = JArray [] \/ value = JObject [])
  /\ (value = JString EmptyString ->
      snd outcome
      = (errors ++ sep ++ "NotEmpty field '" ++ fieldName
         ++ "' cannot be empty")%string)
  /\ (value = JArray [] ->
      snd outcome
      = (errors ++ sep ++ "NotEmpty field '" ++ fieldName
         ++ "' (array/collection) cannot be empty")%string)
  /\ (value = JObject [] ->
      snd outcome
      = (errors ++ sep ++ "NotEmpty field '" ++ fieldName
         ++ "' (map) cannot be empty")%string)
  /\ (fst outcome = true -> snd outcome = errors)
  /\ (is_bool value = true \/ (exists z, value = JInt z) ->
      outcome = (true, errors)).
Proof.
  intros value sep outcome. subst value sep outcome.
  rewrite ValidateNotEmpty_spec. cbv zeta.
  destruct (member doc fieldName) as [|b|z|s|l|ms];
    [ | | | destruct s | destruct l | destruct ms ];
    cbn [isNull is_bool fst snd];
    repeat split; intros;
    repeat match goal with
           | H : _ \/ _ |- _ => destruct H
           | H : exists _, _ |- _ => destruct H
           end;
    try discriminate; auto.
Qed.

Lemma C7_witness :
  let doc := JObject [("tags", JArray []); ("count", JInt 0)] in
  ValidateNotEmpty doc "tags" EmptyString
  = (false, "NotEmpty field 'tags' (array/collection) cannot be empty")
  /\ ValidateNotEmpty doc "count" "earlier" = (true, "earlier").
Proof.
  intros doc.
  pose proof (C7_ValidateNotEmpty_cases doc "tags" EmptyString)
    as (Hfalse & _ & Harray & _).
  pose proof (C7_ValidateNotEmpty_cases doc "count" "earlier")
    as (_ & _ & _ & _ & _ & Hother).
  split.
  - apply injective_projections.
    + apply Hfalse. right. right. left. reflexivity.
    + exact (Harray eq_refl).
  - apply Hother. right. exists 0. reflexivity.
Defined.

(** C8 (code defect).  [ValidateNotBlank] on a field that is present and is
    not a string (the number 5 under n) has no outcome: it builds a
    [StdString] from the null pointer that [as<const char*>()] returns for
    such a node, before it looks at the log.  The call neither returns true
    nor false, so nothing is promised about the log.  [ValidateNotEmpty]
    tests [is<const char*>()] before the same construction and returns true
    there with the log untouched.  Every call that does return keeps the
    log as the claim says: unchanged on true; on false the log given, the
    separator when that was not empty, and one of the validator's messages.
    [ValidateNotNull] and [ValidateNotEmpty] always return;
    [ValidateNotBlank] returns exactly when the field is null, missing or a
    string. *)
Theorem C8_NotBlank_no_outcome_on_non_string :
  let doc := JObject [("n", JInt 5)] in
  ValidateNotBlank doc "n" "earlier" = None
  /\ ValidateNotEmpty doc "n" "earlier" = (true, "earlier")
  /\ forall (doc : JsonVariant) (fieldName : string) (errors : StdString),
       log_step
         [("NotNull field '" ++ fieldName
           ++ "' is required but was null or missing")%string]
         errors (ValidateNotNull doc fieldName errors)
       /\ log_step
            [("NotEmpty field '" ++ fieldName
              ++ "' is required but was null or missing")%string;
             ("NotEmpty field '" ++ fieldName ++ "' cannot be empty")%string;
             ("NotEmpty field '" ++ fieldName
              ++ "' (array/collection) cannot be empty")%string;
             ("NotEmpty field '" ++ fieldName
              ++ "' (map) cannot be empty")%string]
            errors (ValidateNotEmpty doc fieldName errors)
       /\ (forall outcome,
             ValidateNotBlank doc fieldName errors = Some outcome ->
             log_step
               [("NotBlank field '" ++ fieldName
                 ++ "' is required but was null or missing")%string;
                ("NotBlank field '" ++ fieldName
                 ++ "' cannot be empty or blank")%string]
               errors outcome)
       /\ (ValidateNotBlank doc fieldName errors = None <->
           isNull (member doc fieldName) = false
           /\ is_string (member doc fieldName) = false).
Proof.
  intros doc0. split; [reflexivity|]. split; [reflexivity|].
  intros doc fieldName errors.
  rewrite ValidateNotNull_spec, ValidateNotEmpty_spec, ValidateNotBlank_spec.
  cbv zeta. unfold log_step.
  destruct (member doc fieldName) as [|b|z|s|l|ms];
    [ | | | destruct s; [|destruct (all_in whitespace _)]
      | destruct l | destruct ms ];
    cbn [isNull is_string fst snd all_in];
    repeat split;
    try (intros outcome Hout; inversion Hout; subst outcome; cbn [fst snd]);
    try discriminate;
    try (intros [H1 H2]; discriminate);
    try reflexivity;
    try (eexists; split; [|reflexivity]; simpl; tauto).
Qed.

(** The log a validator leaves starts with the log it was given. *)
Lemma log_step_prefix (messages : list string) (before : StdString)
    (outcome : bool * StdString) :
  log_step messages before outcome ->
  exists suffix, snd outcome = (before ++ suffix)%string.
Proof.
  unfold log_step. destruct (fst outcome).
  - intros ->. exists EmptyString. now rewrite append_empty_r.
  - intros (msg & _ & ->). eauto.
Qed.

Import SerializationHelpers.

(* ================================================================== *)
(** ** More on the primitive codec *)

Lemma skip_space_app (a b : string) :
  skip_space a = EmptyString -> skip_space (a ++ b) = skip_space b.
Proof.
  induction a as [|c a IH]; simpl; [reflexivity|].
  destruct (isspace c); [assumption | discriminate].
Qed.

Lemma digit_run_decimal_app (n : Z) (tail : string) :
  0 <= n -> digit_run tail = [] ->
  digit_run (decimal n ++ tail) = digit_run (decimal n).
Proof.
  intros Hn Ht. destruct (decimal_spec n Hn) as (Hall & _ & _).
  now rewrite digit_run_app, Ht, app_nil_r.
Qed.

(** [strtoll]/[strtoull] on white space, the text of [z], and a tail that
    does not start with a digit. *)
Lemma strto_padded (spaces tail : string) (z : Z) :
  skip_space spaces = EmptyString -> digit_run tail = [] ->
  strto (spaces ++ ostream_int z ++ tail) = Some (z <? 0, Z.abs z).
Proof.
  intros Hs Ht. unfold strto. rewrite skip_space_app by assumption.
  unfold ostream_int. destruct (Z.ltb_spec z 0) as [Hneg|Hpos].
  - cbn [append skip_space]. change (isspace "-") with false. cbv iota.
    rewrite Ascii.eqb_refl.
    assert (Hn : 0 <= - z) by lia.
    destruct (decimal_spec _ Hn) as (Hall & Hne & Hv).
    rewrite digit_run_decimal_app by assumption.
    destruct (digit_run (decimal (- z))) as [|d ds] eqn:Ed.
    + destruct (decimal (- z)) as [|c s]; [congruence|].
      simpl in Hall, Ed. apply andb_true_iff in Hall as [Hc _].
      rewrite Hc in Ed. discriminate.
    + rewrite Hv. f_equal. f_equal. lia.
  - destruct (decimal_spec _ Hpos) as (Hall & Hne & Hv).
    destruct (decimal z) as [|c s] eqn:E; [congruence|].
    simpl in Hall. apply andb_true_iff in Hall as [Hc Hs'].
    cbn [append skip_space]. rewrite (isdigit_not_space _ Hc).
    destruct (isdigit_not_sign _ Hc) as [-> ->].
    change (String c (s ++ tail)) with (String c s ++ tail)%string.
    rewrite <- E, digit_run_decimal_app by assumption.
    destruct (digit_run (decimal z)) as [|d ds] eqn:Ed.
    + rewrite E in Ed. simpl in Ed. rewrite Hc in Ed. discriminate.
    + rewrite E in Ed. rewrite Ed in Hv. rewrite Hv. f_equal. f_equal. lia.
Qed.

Lemma static_cast_range (sg : signedness) (bits z : Z) :
  0 < bits ->
  in_range sg bits (static_cast sg bits z) = true
  /\ (static_cast sg bits z - z) mod 2 ^ bits = 0.
Proof.
  intros Hb.
  assert (Hp : 2 ^ bits = 2 * 2 ^ (bits - 1)).
  { rewrite <- Z.pow_succ_r by lia. f_equal. lia. }
  assert (Hpos : 0 < 2 ^ (bits - 1)) by (apply Z.pow_pos_nonneg; lia).
  assert (Hpb : 0 < 2 ^ bits) by lia.
  unfold in_range, int_min, int_max, static_cast. destruct sg.
  - pose proof (Z.mod_pos_bound (z + 2 ^ (bits - 1)) (2 ^ bits) Hpb).
    split; [lia|].
    rewrite (Z.mod_eq (z + 2 ^ (bits - 1)) (2 ^ bits)) by lia.
    replace (z + 2 ^ (bits - 1)
             - 2 ^ bits * ((z + 2 ^ (bits - 1)) / 2 ^ bits)
             - 2 ^ (bits - 1) - z)
      with ((- ((z + 2 ^ (bits - 1)) / 2 ^ bits)) * 2 ^ bits) by ring.
    apply Z.mod_mul. lia.
  - pose proof (Z.mod_pos_bound z (2 ^ bits) Hpb).
    split; [lia|].
    rewrite (Z.mod_eq z (2 ^ bits)) by lia.
    replace (z - 2 ^ bits * (z / 2 ^ bits) - z)
      with ((- (z / 2 ^ bits)) * 2 ^ bits) by ring.
    apply Z.mod_mul. lia.
Qed.

(** The integral branch on a text [strto] reads as the number [z], for [z]
    within what [stoll] (signed) or [stoull] (unsigned) returns. *)
Lemma convert_integral_of_strto (sg : signedness) (bits z : Z)
    (input : string) :
  strto input = Some (z <? 0, Z.abs z) ->
  in_range sg 64 z = true ->
  convert_integral sg bits input = Ok (static_cast sg bits z).
Proof.
  intros Hs H64. unfold convert_integral, stoll, stoull. rewrite Hs.
  unfold in_range, int_min, int_max in H64.
  destruct sg; simpl in H64.
  - replace (if z <? 0 then - Z.abs z else Z.abs z) with z
      by (destruct (Z.ltb_spec z 0); lia).
    unfold LLONG_MIN, LLONG_MAX.
    replace ((- 2 ^ 63 <=? z) && (z <=? 2 ^ 63 - 1)) with true by lia.
    reflexivity.
  - unfold ULLONG_MAX.
    replace (Z.abs z <=? 2 ^ 64 - 1) with true by lia.
    replace (z <? 0) with false by lia.
    cbn [fmap bind try_catch_rethrow]. do 2 f_equal. lia.
Qed.

Section PrimitiveCodecMore.
Context `{JL : JsonLibrary} `{CC : CompositeCapability}.

(** X1.  For bool, the string types and short/int/long/size_t in their
    signed and unsigned forms, a value written by [Serialize] or by
    [SerializeValue] is read back unchanged by [Deserialize] and by
    [DeserializeValue]. *)
Theorem X1_primitive_text_round_trip (p : prim) (x : denote_prim p) :
  (forall sg, p <> PChar sg) -> prim_ok p x ->
  Deserialize (TPrim p) (Serialize (TPrim p) x) = Ok x
  /\ DeserializeValue (VPrim p) (SerializeValue (EPrim p) x) = Ok x.
Proof.
  intros Hp Hx. split; apply primitive_round_trip; assumption.
Qed.

(** X2.  The integer reader is lenient: white space before the number is
    skipped and whatever follows the digits is ignored, so the text of [z]
    padded this way still reads as [z]. *)
Theorem X2_integral_parse_lenient (sg : signedness) (w : width) (z : Z)
    (spaces tail : string) :
  in_range sg (bits_of w) z = true ->
  skip_space spaces = EmptyString ->
  digit_run tail = [] ->
  Deserialize (TPrim (PIntegral sg w)) (spaces ++ ostream_int z ++ tail) = Ok z.
Proof.
  intros Hr Hs Ht. cbn [Deserialize convert_string_to_primitive].
  rewrite (convert_integral_of_strto sg (bits_of w) z).
  - now rewrite static_cast_in_range by (apply bits_of_bounds || assumption).
  - now apply strto_padded.
  - apply (in_range_widen _ (bits_of w)); [apply bits_of_bounds | assumption].
Qed.

(** X3.  There is no range check against the target type: the text of any
    [z] that [stoll] (for a signed type) or [stoull] (for an unsigned one)
    can return is accepted, and the result is [z] wrapped into the type:
    within its range and congruent to [z] modulo [2^w]. *)
Theorem X3_integral_narrowing_wraps (sg : signedness) (w : width) (z : Z) :
  in_range sg 64 z = true ->
  exists r,
    Deserialize (TPrim (PIntegral sg w)) (ostream_int z) = Ok r
    /\ in_range sg (bits_of w) r = true
    /\ (r - z) mod 2 ^ bits_of w = 0.
Proof.
  intros H64. exists (static_cast sg (bits_of w) z).
  cbn [Deserialize convert_string_to_primitive].
  split.
  - apply convert_integral_of_strto; [apply strto_ostream_int | assumption].
  - apply static_cast_range. apply bits_of_bounds.
Qed.

(** X4.  Whatever the text, an integral [Deserialize] either returns a value
    within the range of its type or throws [invalid_argument] with the text
    Invalid integer value: followed by the input; a text with no digit after
    the optional white space and sign, the empty text among them, is
    rejected. *)
Theorem X4_integral_result_or_error (sg : signedness) (w : width)
    (input : StdString) :
  (forall v, Deserialize (TPrim (PIntegral sg w)) input = Ok v ->
             in_range sg (bits_of w) v = true)
  /\ (forall e, Deserialize (TPrim (PIntegral sg w)) input = Throw e ->
                e = invalid_argument ("Invalid integer value: " ++ input))
  /\ (strto input = None ->
      Deserialize (TPrim (PIntegral sg w)) input
      = Throw (invalid_argument ("Invalid integer value: " ++ input))).
Proof.
  cbn [Deserialize convert_string_to_primitive].
  unfold convert_integral, stoll, stoull.
  pose proof (fun z => proj1 (static_cast_range sg (bits_of w) z
                                (proj1 (bits_of_bounds w)))) as Hr.
  destruct (strto input) as [[neg m]|]; destruct sg;
    try destruct ((LLONG_MIN <=? (if neg then - m else m))
                  && ((if neg then - m else m) <=? LLONG_MAX));
    try destruct (m <=? ULLONG_MAX);
    cbn [fmap bind try_catch_rethrow]; repeat split; intros;
    try congruence;
    match goal with H : Ok _ = Ok _ |- _ => inversion H; subst; apply Hr end.
Qed.
End PrimitiveCodecMore.

Lemma X1_witness :
  (forall sg, PIntegral Signed W16 <> PChar sg)
  /\ prim_ok (PIntegral Signed W16) (-32768)
  /\ Deserialize (JL := JsonText.library) (CC := Point.capability)
       (TPrim (PIntegral Signed W16)) "-32768" = Ok (-32768).
Proof.
  assert (H1 : forall sg, PIntegral Signed W16 <> PChar sg)
    by (intros sg; discriminate).
  assert (H2 : prim_ok (PIntegral Signed W16) (-32768)) by reflexivity.
  split; [exact H1|]. split; [exact H2|].
  exact (proj1 (X1_primitive_text_round_trip (JL := JsonText.library)
                  (CC := Point.capability) (PIntegral Signed W16) (-32768)
                  H1 H2)).
Defined.

Lemma X2_witness :
  in_range Signed 32 12 = true
  /\ skip_space " " = EmptyString
  /\ digit_run "abc" = []
  /\ Deserialize (JL := JsonText.library) (CC := Point.capability)
       (TPrim (PIntegral Signed W32)) " 12abc" = Ok 12.
Proof.
  split; [reflexivity|]. split; [reflexivity|]. split; [reflexivity|].
  exact (X2_integral_parse_lenient (JL := JsonText.library)
           (CC := Point.capability) Signed W32 12 " " "abc"
           eq_refl eq_refl eq_refl).
Defined.

Lemma X3_witness :
  in_range Signed 64 70000 = true
  /\ exists r,
       Deserialize (JL := JsonText.library) (CC := Point.capability)
         (TPrim (PIntegral Signed W16)) "70000" = Ok r
       /\ in_range Signed 16 r = true
       /\ (r - 70000) mod 2 ^ 16 = 0.
Proof.
  split; [reflexivity|].
  exact (X3_integral_narrowing_wraps (JL := JsonText.library)
           (CC := Point.capability) Signed W16 70000 eq_refl).
Defined.

Lemma tolower_letter (a l : ascii) :
  97 <= code l <= 122 ->
  tolower a = l <-> a = l \/ a = chr (code l - 32).
Proof.
  intros Hl. unfold tolower.
  pose proof (code_bounds a) as Ha.
  destruct ((65 <=? code a) && (code a <=? 90)) eqn:E.
  - assert (Hup : 65 <= code a <= 90) by lia. split.
    + intros H. right. apply (f_equal code) in H.
      rewrite code_chr in H by lia.
      rewrite <- H. replace (code a + 32 - 32) with (code a) by lia.
      now rewrite chr_code.
    + intros [H|H]; [subst; lia|].
      subst a. rewrite code_chr in * by lia.
      replace (code l - 32 + 32) with (code l) by lia. apply chr_code.
  - split; [now left|]. intros [H|H]; [assumption|].
    subst a. rewrite code_chr in E by lia. lia.
Qed.

Lemma tolower_other (a l : ascii) :
  code l < 65 \/ (90 < code l < 97) \/ 122 < code l ->
  tolower a = l <-> a = l.
Proof.
  intros Hl. unfold tolower.
  pose proof (code_bounds a) as Ha.
  destruct ((65 <=? code a) && (code a <=? 90)) eqn:E; [|tauto].
  split; intros H.
  - apply (f_equal code) in H. rewrite code_chr in H by lia. lia.
  - subst. lia.
Qed.

Lemma transform_cons_eq (f : ascii -> ascii) (s : string) (l : ascii)
    (t : string) :
  transform f s = String l t <->
  exists a s', s = String a s' /\ f a = l /\ transform f s' = t.
Proof.
  destruct s as [|a s']; simpl; split.
  - discriminate.
  - intros (a & s' & H & _); discriminate.
  - intros H. inversion H. eauto.
  - intros (a0 & s0 & H & <- & <-). now inversion H.
Qed.

Lemma transform_empty_eq (f : ascii -> ascii) (s : string) :
  transform f s = EmptyString <-> s = EmptyString.
Proof. destruct s; simpl; split; congruence. Qed.

(** X5.  [Deserialize<bool>] accepts the digit 1 and the word true in any
    mix of upper and lower case as true, the digit 0 and the word false in
    any mix of case as false, and nothing else: no surrounding white space,
    no other word.  Every other text throws [invalid_argument] with
    Invalid boolean value: followed by the input. *)
Theorem X5_bool_texts (input : StdString) :
  (convert_string_to_primitive PBool input = Ok true <->
   input = "1" \/
   exists a b c d,
     input = String a (String b (String c (String d EmptyString)))
     /\ (a = "t" \/ a = "T")%char /\ (b = "r" \/ b = "R")%char
     /\ (c = "u" \/ c = "U")%char /\ (d = "e" \/ d = "E")%char)
  /\ (convert_string_to_primitive PBool input = Ok false <->
      input = "0" \/
      exists a b c d e,
        input = String a (String b (String c (String d (String e EmptyString))))
        /\ (a = "f" \/ a = "F")%char /\ (b = "a" \/ b = "A")%char
        /\ (c = "l" \/ c = "L")%char /\ (d = "s" \/ d = "S")%char
        /\ (e = "e" \/ e = "E")%char)
  /\ (forall e, convert_string_to_primitive PBool input = Throw e ->
        e = invalid_argument ("Invalid boolean value: " ++ input)).
Proof.
  assert (Htrue : String.eqb (transform tolower input) "true" = true <->
    exists a b c d,
      input = String a (String b (String c (String d EmptyString)))
      /\ (a = "t" \/ a = "T")%char /\ (b = "r" \/ b = "R")%char
      /\ (c = "u" \/ c = "U")%char /\ (d = "e" \/ d = "E")%char).
  { rewrite String.eqb_eq. split.
    - intros H.
      apply transform_cons_eq in H as (a & s1 & -> & Ha & H).
      apply transform_cons_eq in H as (b & s2 & -> & Hb & H).
      apply transform_cons_eq in H as (c & s3 & -> & Hc & H).
      apply transform_cons_eq in H as (d & s4 & -> & Hd & H).
      apply transform_empty_eq in H as ->.
      exists a, b, c, d. split; [reflexivity|].
      apply tolower_letter in Ha, Hb, Hc, Hd; try (vm_compute; split; discriminate).
      tauto.
    - intros (a & b & c & d & -> & Ha & Hb & Hc & Hd). simpl.
      rewrite (proj2 (tolower_letter a "t" ltac:(vm_compute; split; discriminate))) by exact Ha.
      rewrite (proj2 (tolower_letter b "r" ltac:(vm_compute; split; discriminate))) by exact Hb.
      rewrite (proj2 (tolower_letter c "u" ltac:(vm_compute; split; discriminate))) by exact Hc.
      rewrite (proj2 (tolower_letter d "e" ltac:(vm_compute; split; discriminate))) by exact Hd.
      reflexivity. }
  assert (Hfalse : String.eqb (transform tolower input) "false" = true <->
    exists a b c d e,
      input = String a (String b (String c (String d (String e EmptyString))))
      /\ (a = "f" \/ a = "F")%char /\ (b = "a" \/ b = "A")%char
      /\ (c = "l" \/ c = "L")%char /\ (d = "s" \/ d = "S")%char
      /\ (e = "e" \/ e = "E")%char).
  { rewrite String.eqb_eq. split.
    - intros H.
      apply transform_cons_eq in H as (a & s1 & -> & Ha & H).
      apply transform_cons_eq in H as (b & s2 & -> & Hb & H).
      apply transform_cons_eq in H as (c & s3 & -> & Hc & H).
      apply transform_cons_eq in H as (d & s4 & -> & Hd & H).
      apply transform_cons_eq in H as (e & s5 & -> & He & H).
      apply transform_empty_eq in H as ->.
      exists a, b, c, d, e. split; [reflexivity|].
      apply tolower_letter in Ha, Hb, Hc, Hd, He;
        try (vm_compute; split; discriminate).
      tauto.
    - intros (a & b & c & d & e & -> & Ha & Hb & Hc & Hd & He). simpl.
      rewrite (proj2 (tolower_letter a "f" ltac:(vm_compute; split; discriminate))) by exact Ha.
      rewrite (proj2 (tolower_letter b "a" ltac:(vm_compute; split; discriminate))) by exact Hb.
      rewrite (proj2 (tolower_letter c "l" ltac:(vm_compute; split; discriminate))) by exact Hc.
      rewrite (proj2 (tolower_letter d "s" ltac:(vm_compute; split; discriminate))) by exact Hd.
      rewrite (proj2 (tolower_letter e "e" ltac:(vm_compute; split; discriminate))) by exact He.
      reflexivity. }
  assert (Hdigit : forall l, code l < 65 ->
            String.eqb (transform tolower input) (String l EmptyString) = true
            <-> input = String l EmptyString).
  { intros l Hl. rewrite String.eqb_eq. split.
    - intros H. apply transform_cons_eq in H as (a & s1 & -> & Ha & H).
      apply transform_empty_eq in H as ->.
      apply (proj1 (tolower_other a l (or_introl Hl))) in Ha. now subst.
    - intros ->. simpl. f_equal.
      now apply (proj2 (tolower_other l l (or_introl Hl))). }
  pose proof (Hdigit "1"%char ltac:(vm_compute; reflexivity)) as H1.
  pose proof (Hdigit "0"%char ltac:(vm_compute; reflexivity)) as H0.
  cbn [convert_string_to_primitive]. cbv zeta.
  destruct (String.eqb (transform tolower input) "true") eqn:Et;
  destruct (String.eqb (transform tolower input) "1") eqn:E1;
  destruct (String.eqb (transform tolower input) "false") eqn:Ef;
  destruct (String.eqb (transform tolower input) "0") eqn:E0;
  cbn [orb];
  try (apply String.eqb_eq in Et; apply String.eqb_eq in Ef; congruence);
  try (apply String.eqb_eq in Et; apply String.eqb_eq in E0; congruence);
  try (apply String.eqb_eq in E1; apply String.eqb_eq in Ef; congruence);
  try (apply String.eqb_eq in E1; apply String.eqb_eq in E0; congruence);
  try (apply String.eqb_eq in E1; apply String.eqb_eq in Et; congruence);
  try (apply String.eqb_eq in E0; apply String.eqb_eq in Ef; congruence);
  (split; [|split]); try (intros; congruence);
  split; intros H; try reflexivity; try discriminate;
  try (right; now apply Htrue); try (right; now apply Hfalse);
  try (left; now apply H1); try (left; now apply H0);
  destruct H as [H|H];
  try (apply H1 in H; discriminate); try (apply H0 in H; discriminate);
  try (apply Htrue in H; discriminate); try (apply Hfalse in H; discriminate).
Qed.

(* ================================================================== *)
(** ** More on the optional codec *)

Section OptionalCodecMore.
Context `{JL : JsonLibrary} `{CC : CompositeCapability}.

(** X6.  An absent optional is written as the empty text and read back as
    absent.  A present value does not survive when its own text is empty,
    null or {}: it is read back as absent (an empty string, the string
    null, a map that serializes to {}). *)
Theorem X6_optional_absent_texts (T : ctype) :
  Deserialize (TOptional T) (Serialize (TOptional T) None) = Ok None
  /\ forall x : denote T,
       Serialize T x = EmptyString \/ Serialize T x = "null"
       \/ Serialize T x = "{}" ->
       Deserialize (TOptional T) (Serialize (TOptional T) (Some x)) = Ok None.
Proof.
  split; [reflexivity|].
  intros x H. cbn [Deserialize Serialize]. unfold Deserialize_optional.
  destruct H as [-> | [-> | ->]]; reflexivity.
Qed.

(** X7.  A present optional of bool, string or number type comes back as
    the same present value when its text is none of the three absent texts
    and the JSON library, if it parses the text at all, yields a node that
    is not null and that, if it holds a value of the type, holds this
    one. *)
Theorem X7_optional_primitive_round_trip (p : prim) (x : denote_prim p) :
  (forall sg, p <> PChar sg) -> prim_ok p x ->
  Serialize (TPrim p) x <> EmptyString ->
  Serialize (TPrim p) x <> "null" ->
  Serialize (TPrim p) x <> "{}" ->
  (forall doc,
     deserializeJson (c_str (Serialize (TPrim p) x)) = ParseOk doc ->
     doc <> JNull /\ (variant_is p doc = true -> variant_as p doc = x)) ->
  Deserialize (TOptional (TPrim p)) (Serialize (TOptional (TPrim p)) (Some x))
  = Ok (Some x).
Proof.
  intros Hp Hx H1 H2 H3 Hdoc.
  pose proof (primitive_round_trip p x Hp Hx) as Hrt.
  change (Serialize (TOptional (TPrim p)) (Some x))
    with (Serialize (TPrim p) x).
  destruct (deserializeJson (c_str (Serialize (TPrim p) x)))
    as [doc|err] eqn:Hparse.
  - destruct (Hdoc doc eq_refl) as [Hnn Hval].
    rewrite (optional_primitive_from_node p _ doc H1 H2 H3 Hparse Hnn).
    destruct (variant_is p doc).
    + now rewrite Hval.
    + now rewrite Hrt.
  - cbn [Deserialize]. unfold Deserialize_optional.
    replace (empty (Serialize (TPrim p) x)) with false
      by (destruct (Serialize (TPrim p) x); [contradiction | reflexivity]).
    apply String.eqb_neq in H2, H3. rewrite H2, H3, Hparse. cbn [orb].
    cbn [Deserialize] in Hrt. now rewrite Hrt.
Qed.
End OptionalCodecMore.

Lemma X6_witness :
  let M := TAssoc Map (EPrim PString) (EPrim (PIntegral Signed W32)) in
  Serialize (JL := JsonText.library) (CC := Point.capability) M [] = "{}"
  /\ Deserialize (JL := JsonText.library) (CC := Point.capability)
       (TOptional M)
       (Serialize (JL := JsonText.library) (CC := Point.capability)
          (TOptional M) (Some []))
     = Ok None.
Proof.
  intros M.
  assert (H : Serialize (JL := JsonText.library) (CC := Point.capability)
                M [] = "{}") by (vm_compute; reflexivity).
  split; [exact H|].
  exact (proj2 (X6_optional_absent_texts (JL := JsonText.library)
                  (CC := Point.capability) M) []
           (or_intror (or_intror H))).
Defined.

Lemma X7_witness :
  Deserialize (JL := JsonText.library) (CC := Point.capability)
    (TOptional (TPrim (PIntegral Signed W32)))
    (Serialize (JL := JsonText.library) (CC := Point.capability)
       (TOptional (TPrim (PIntegral Signed W32))) (Some 42))
  = Ok (Some 42).
Proof.
  apply (X7_optional_primitive_round_trip (JL := JsonText.library)
           (CC := Point.capability) (PIntegral Signed W32) 42).
  - intros sg. discriminate.
  - reflexivity.
  - discriminate.
  - discriminate.
  - discriminate.
  - intros doc Hdoc. vm_compute in Hdoc. inversion Hdoc; subst doc.
    split; [discriminate | reflexivity].
Defined.

(* ================================================================== *)
(** ** More on the sequential containers *)

Section SequentialMore.
Context `{JL : JsonLibrary} `{CC : CompositeCapability}.

Lemma add_elements_push (k : seq_kind) (e : elem)
    (elements : list JsonVariant) :
  match k with Vector | List | Deque => True | _ => False end ->
  forall (index : nat) (acc : list (denote_elem e)),
    add_elements k e elements index acc
    = fmap (fun vs => acc ++ vs)%list (read_all e elements).
Proof.
  intros Hk. induction elements as [|el rest IH]; intros index acc.
  - simpl. now rewrite app_nil_r.
  - cbn [add_elements read_all]. unfold deserialize_and_add_element.
    destruct (deserialized_value e el) as [v|ex]; cbn [bind]; [|reflexivity].
    replace (add_to_container k e acc v index) with (acc ++ [v])%list
      by (destruct k; try contradiction; reflexivity).
    rewrite IH. unfold fmap.
    destruct (read_all e rest) as [vs|ex]; cbn [bind]; [|reflexivity].
    now rewrite <- app_assoc.
Qed.

Lemma add_elements_array_slots (N : nat) (e : elem)
    (elements : list JsonVariant) :
  forall (done rest : list (denote_elem e)),
    (List.length elements <= List.length rest)%nat ->
    add_elements (Array N) e elements (List.length done) (done ++ rest)%list
    = fmap (fun vs => done ++ vs ++ skipn (List.length elements) rest)%list
        (read_all e elements).
Proof.
  induction elements as [|el elements IH]; intros done rest Hlen.
  - reflexivity.
  - destruct rest as [|old rest]; [simpl in Hlen; lia|].
    cbn [add_elements read_all]. unfold deserialize_and_add_element.
    destruct (deserialized_value e el) as [v|ex]; cbn [bind]; [|reflexivity].
    cbn [add_to_container].
    match goal with
    | |- context [(?a <? ?b)%nat] =>
        replace (a <? b)%nat with true
          by (symmetry; apply Nat.ltb_lt; rewrite length_app; simpl; lia)
    end.
    rewrite array_set_middle.
    assert (Hl : (List.length elements <= List.length rest)%nat)
      by (simpl in Hlen; lia).
    pose proof (IH (done ++ [v])%list rest Hl) as H.
    rewrite <- !app_assoc in H. simpl in H.
    rewrite length_app in H. simpl in H. rewrite Nat.add_1_r in H.
    rewrite H. unfold fmap.
    destruct (read_all e elements) as [vs|ex]; cbn [bind]; [|reflexivity].
    now rewrite <- !app_assoc.
Qed.

(** The order-keeping containers hold the elements as read, in the order of
    the JSON array. *)
Lemma ordered_container_read_in_order (k : seq_kind) (e : elem)
    (input : StdString) (elements : list JsonVariant) :
  deserializeJson (c_str input) = ParseOk (JArray elements) ->
  keeps_order k (List.length elements) ->
  Deserialize (TSeq k e) input = read_all e elements.
Proof.
  intros Hparse Hk. cbn [Deserialize].
  unfold deserialize_sequential_container. rewrite Hparse.
  cbn [is_JsonArray negb as_JsonArray].
  assert (Hpush : match k with Vector | List | Deque => True | _ => False end ->
            add_elements k e elements 0 (new_container k e)
            = read_all e elements).
  { intros Hp. rewrite add_elements_push by assumption.
    replace (new_container k e) with (@nil (denote_elem e))
      by (destruct k; try contradiction; reflexivity).
    unfold fmap. now destruct (read_all e elements). }
  destruct k as [| | | | |N]; try (apply Hpush; exact I); try contradiction.
  simpl in Hk. rewrite Hk, Nat.eqb_refl. cbn [negb].
  change (new_container (Array N) e) with ([] ++ repeat (elem_default e) N)%list.
  change 0%nat with (@List.length (denote_elem e) []) at 1.
  rewrite add_elements_array_slots by (rewrite repeat_length; lia).
  unfold fmap. destruct (read_all e elements) as [vs|ex]; cbn [bind];
    [|reflexivity].
  rewrite skipn_all2 by (rewrite repeat_length; lia).
  now rewrite app_nil_r.
Qed.

Lemma read_all_primitive (p : prim) (elements : list JsonVariant) :
  exists c,
    read_all (EPrim p) elements = Ok c
    /\ Forall2 (fun el v => deserialized_value (EPrim p) el = Ok v) elements c.
Proof.
  induction elements as [|el rest (c & Hc & Hf)].
  - exists []. split; [reflexivity | constructor].
  - assert (Hv : exists v, deserialized_value (EPrim p) el = Ok v)
      by (destruct p; eexists; reflexivity).
    destruct Hv as [v Hv]. exists (v :: c).
    cbn [read_all]. rewrite Hv, Hc. split; [reflexivity|].
    now constructor.
Qed.

(** X8.  Reading a JSON array into a vector, list, deque or array (of the
    right size) of primitives never fails on an element.  The result has
    one entry per element, in order; each entry is what the element reads
    as, and an element that is not a string reads as the empty string in a
    container of strings. *)
Theorem X8_primitive_elements_never_fail (k : seq_kind) (p : prim)
    (input : StdString) (elements : list JsonVariant) :
  deserializeJson (c_str input) = ParseOk (JArray elements) ->
  keeps_order k (List.length elements) ->
  exists c,
    Deserialize (TSeq k (EPrim p)) input = Ok c
    /\ List.length c = List.length elements
    /\ Forall2 (fun el v => deserialized_value (EPrim p) el = Ok v) elements c
    /\ (forall el, is_string el = false ->
          deserialized_value (EPrim PString) el = Ok EmptyString).
Proof.
  intros Hparse Hk.
  destruct (read_all_primitive p elements) as (c & Hc & Hf).
  exists c. rewrite (ordered_container_read_in_order k _ _ _ Hparse Hk).
  repeat split; try assumption.
  - symmetry. exact (Forall2_length Hf).
  - intros el Hs. destruct el; try discriminate; reflexivity.
Qed.

Lemma add_elements_failure (k : seq_kind) (e : elem)
    (pre post : list JsonVariant) (bad : JsonVariant) (ex : exception) :
  Forall (fun el => exists v, deserialized_value e el = Ok v) pre ->
  deserialized_value e bad = Throw ex ->
  forall index acc,
    add_elements k e (pre ++ bad :: post) index acc = Throw ex.
Proof.
  intros Hpre Hbad. induction Hpre as [|el pre [v Hv] _ IH]; intros index acc.
  - cbn [app add_elements]. unfold deserialize_and_add_element.
    now rewrite Hbad.
  - cbn [app add_elements]. unfold deserialize_and_add_element.
    rewrite Hv. cbn [bind]. apply IH.
Qed.

(** X9.  When an element cannot be read (the [Deserialize] of a composite
    element throws), the whole container read throws that exception, for
    every kind of container: the elements read before it are dropped, the
    ones after it are not looked at. *)
Theorem X9_element_failure_propagates (k : seq_kind) (e : elem)
    (input : StdString) (pre post : list JsonVariant) (bad : JsonVariant)
    (ex : exception) :
  deserializeJson (c_str input) = ParseOk (JArray (pre ++ bad :: post)) ->
  (forall N, k = Array N -> List.length (pre ++ bad :: post) = N) ->
  Forall (fun el => exists v, deserialized_value e el = Ok v) pre ->
  deserialized_value e bad = Throw ex ->
  Deserialize (TSeq k e) input = Throw ex.
Proof.
  intros Hparse Hsize Hpre Hbad. cbn [Deserialize].
  unfold deserialize_sequential_container. rewrite Hparse.
  cbn [is_JsonArray negb as_JsonArray].
  destruct k as [| | | | |N];
    try (apply add_elements_failure; assumption).
  rewrite (Hsize N eq_refl), Nat.eqb_refl. cbn [negb].
  apply add_elements_failure; assumption.
Qed.
End SequentialMore.

Lemma X8_witness :
  let input := String "[" (JsonText.write_string "a" ++ ",1,null]") in
  let elements := [JString "a"; JInt 1; JNull] in
  deserializeJson (JsonLibrary := JsonText.library) (c_str input)
    = ParseOk (JArray elements)
  /\ keeps_order Vector (List.length elements)
  /\ Deserialize (JL := JsonText.library) (CC := Point.capability)
       (TSeq Vector (EPrim PString)) input
     = Ok ["a"; EmptyString; EmptyString].
Proof.
  intros input elements.
  assert (H1 : deserializeJson (JsonLibrary := JsonText.library) (c_str input)
               = ParseOk (JArray elements)) by (vm_compute; reflexivity).
  split; [exact H1|]. split; [exact I|].
  destruct (X8_primitive_elements_never_fail (JL := JsonText.library)
              (CC := Point.capability) Vector PString input elements H1 I)
    as (c & Hc & _).
  rewrite Hc. vm_compute in Hc. exact (eq_sym Hc).
Defined.

Lemma X9_witness :
  let input := "[[1,2],[3],[5,6]]" in
  Deserialize (JL := JsonText.library) (CC := Point.capability)
    (TSeq Set_ EComposite) input
  = Throw (invalid_argument "Invalid Point: [3]").
Proof.
  intros input.
  apply (X9_element_failure_propagates (JL := JsonText.library)
           (CC := Point.capability) Set_ EComposite input
           [JArray [JInt 1; JInt 2]] [JArray [JInt 5; JInt 6]]
           (JArray [JInt 3])).
  - vm_compute. reflexivity.
  - intros N HN. discriminate.
  - constructor; [|constructor]. exists (1, 2). vm_compute. reflexivity.
  - vm_compute. reflexivity.
Defined.

Lemma set_insert_Z (v : Z) (l : list Z) :
  StronglySorted Z.lt l ->
  StronglySorted Z.lt (set_insert Z.ltb v l)
  /\ forall x, In x (set_insert Z.ltb v l) <-> x = v \/ In x l.
Proof.
  induction 1 as [|y l Hs IH Hy]; simpl.
  - split.
    + constructor; constructor.
    + intros x. intuition (subst; auto).
  - destruct IH as [IHs IHin]. pose proof Hy as Hall.
    rewrite Forall_forall in Hy.
    destruct (Z.ltb_spec v y) as [Hvy|Hvy].
    + split; [|intros x; simpl; intuition (subst; auto)].
      constructor; [now constructor|].
      constructor; [assumption|].
      apply Forall_forall. intros x Hx. specialize (Hy x Hx). lia.
    + destruct (Z.ltb_spec y v) as [Hyv|Hyv].
      * split.
        -- constructor; [assumption|].
           apply Forall_forall. intros x Hx. apply IHin in Hx as [->|Hx];
             [assumption | now apply Hy].
        -- intros x. simpl. rewrite IHin. intuition (subst; auto).
      * assert (v = y) by lia. subst y. split.
        -- now constructor.
        -- intros x. simpl. intuition (subst; auto).
Qed.

Lemma uset_insert_Z (v : Z) (l : list Z) :
  NoDup l ->
  NoDup (uset_insert Z.eqb v l)
  /\ forall x, In x (uset_insert Z.eqb v l) <-> x = v \/ In x l.
Proof.
  induction 1 as [|y l Hy Hnd IH]; simpl.
  - split.
    + constructor; [intros [] | constructor].
    + intros x. intuition (subst; auto).
  - destruct IH as [IHs IHin].
    destruct (Z.eqb_spec y v) as [->|Hne].
    + split; [now constructor|]. intros x. simpl. intuition (subst; auto).
    + split.
      * constructor; [|assumption]. rewrite IHin. intros [->|Hin]; auto.
      * intros x. simpl. rewrite IHin. intuition (subst; auto).
Qed.

Section SetsMore.
Context `{JL : JsonLibrary} `{CC : CompositeCapability}.

Lemma add_elements_inserting (k : seq_kind) (sg : signedness) (w : width)
    (Inv : list Z -> Prop) :
  (forall v l index, Inv l ->
     Inv (add_to_container k (EPrim (PIntegral sg w)) l v index)
     /\ forall x,
          In x (add_to_container k (EPrim (PIntegral sg w)) l v index)
          <-> x = v \/ In x l) ->
  forall elements index acc,
    Inv acc ->
    exists c,
      add_elements k (EPrim (PIntegral sg w)) elements index acc = Ok c
      /\ Inv c
      /\ forall x,
           In x c <->
           In x acc \/
           exists el, In el elements
                      /\ deserialized_value (EPrim (PIntegral sg w)) el = Ok x.
Proof.
  intros Hadd. induction elements as [|el rest IH]; intros index acc Hacc.
  - exists acc. cbn [add_elements]. repeat split; try assumption.
    + now left.
    + intros [H|(el & [] & _)]. assumption.
  - cbn [add_elements]. unfold deserialize_and_add_element.
    cbn [deserialized_value bind].
    set (v := static_cast sg (bits_of w) (as_integral sg 64 el)).
    destruct (Hadd v acc index Hacc) as [Hinv Hin].
    destruct (IH (S index) _ Hinv) as (c & Hc & Hcinv & Hcin).
    exists c. split; [exact Hc|]. split; [exact Hcinv|].
    intros x. rewrite Hcin, Hin. split.
    + intros [[->|H]|(el' & Hel & Hx)].
      * right. exists el. split; [now left | reflexivity].
      * now left.
      * right. exists el'. split; [now right | assumption].
    + intros [H|(el' & [<-|Hel] & Hx)].
      * left. now right.
      * left. left. cbn [deserialized_value] in Hx. now inversion Hx.
      * right. exists el'. split; assumption.
Qed.

(** X10.  Reading a JSON array of numbers into a [std::set] gives the
    numbers read in strictly increasing order, and into a
    [std::unordered_set] gives them without repetition; either way the
    container holds exactly the values the elements read as, whatever their
    order and however often they occur in the array. *)
Theorem X10_set_semantics (sg : signedness) (w : width) (input : StdString)
    (elements : list JsonVariant) :
  deserializeJson (c_str input) = ParseOk (JArray elements) ->
  (exists c : list Z,
     Deserialize (TSeq Set_ (EPrim (PIntegral sg w))) input = Ok c
     /\ StronglySorted Z.lt c
     /\ forall x,
          In x c <->
          exists el, In el elements
                     /\ deserialized_value (EPrim (PIntegral sg w)) el = Ok x)
  /\ (exists c : list Z,
        Deserialize (TSeq UnorderedSet (EPrim (PIntegral sg w))) input = Ok c
        /\ NoDup c
        /\ forall x,
             In x c <->
             exists el, In el elements
                        /\ deserialized_value (EPrim (PIntegral sg w)) el = Ok x).
Proof.
  intros Hparse. cbn [Deserialize].
  unfold deserialize_sequential_container. rewrite Hparse.
  cbn [is_JsonArray negb as_JsonArray new_container]. split.
  - destruct (add_elements_inserting Set_ sg w (StronglySorted Z.lt)
                (fun v l _ Hl => set_insert_Z v l Hl) elements 0%nat []
                (SSorted_nil _)) as (c & Hc & Hs & Hin).
    exists c. repeat split; try assumption.
    + intros Hx. apply Hin in Hx as [[]|Hx]. exact Hx.
    + intros Hx. apply Hin. now right.
  - destruct (add_elements_inserting UnorderedSet sg w (@NoDup Z)
                (fun v l _ Hl => uset_insert_Z v l Hl) elements 0%nat []
                (NoDup_nil _)) as (c & Hc & Hs & Hin).
    exists c. repeat split; try assumption.
    + intros Hx. apply Hin in Hx as [[]|Hx]. exact Hx.
    + intros Hx. apply Hin. now right.
Qed.
End SetsMore.

Lemma X10_witness :
  let input := "[3,1,3,2]" in
  deserializeJson (JsonLibrary := JsonText.library) (c_str input)
    = ParseOk (JArray [JInt 3; JInt 1; JInt 3; JInt 2])
  /\ Deserialize (JL := JsonText.library) (CC := Point.capability)
       (TSeq Set_ (EPrim (PIntegral Signed W32))) input
     = Ok [1; 2; 3]
  /\ exists u,
       Deserialize (JL := JsonText.library) (CC := Point.capability)
         (TSeq UnorderedSet (EPrim (PIntegral Signed W32))) input
       = Ok u
       /\ NoDup u /\ forall x, In x u <-> x = 1 \/ x = 2 \/ x = 3.
Proof.
  intros input.
  assert (H1 : deserializeJson (JsonLibrary := JsonText.library) (c_str input)
               = ParseOk (JArray [JInt 3; JInt 1; JInt 3; JInt 2]))
    by (vm_compute; reflexivity).
  split; [exact H1|].
  destruct (X10_set_semantics (JL := JsonText.library)
              (CC := Point.capability) Signed W32 input _ H1)
    as [(c & Hc & _) (u & Hu & Hnd & Hmem)].
  split.
  - rewrite Hc. vm_compute in Hc. exact (eq_sym Hc).
  - exists u. split; [exact Hu|]. split; [exact Hnd|].
    intros x. rewrite Hmem. split.
    + intros (el & Hel & Hv). simpl in Hel.
      destruct Hel as [<- | [<- | [<- | [<- | []]]]]; vm_compute in Hv;
        inversion Hv; tauto.
    + intros [-> | [-> | ->]];
        [exists (JInt 1) | exists (JInt 2) | exists (JInt 3)];
        (split; [simpl; tauto | reflexivity]).
Defined.

(* ================================================================== *)
(** ** More on the associative containers *)

Lemma string_compare_refl (a : string) : String.compare a a = Eq.
Proof.
  pose proof (String.compare_antisym a a) as H.
  destruct (String.compare a a); simpl in H; congruence.
Qed.

Lemma string_compare_lt_trans (a b c : string) :
  String.compare a b = Lt -> String.compare b c = Lt ->
  String.compare a c = Lt.
Proof.
  revert b c. induction a as [|x a IH]; intros [|y b] [|z c]; simpl;
    try discriminate; try reflexivity.
  unfold Ascii.compare.
  destruct (N.compare_spec (N_of_ascii x) (N_of_ascii y)) as [Hxy|Hxy|Hxy];
    try discriminate;
  destruct (N.compare_spec (N_of_ascii y) (N_of_ascii z)) as [Hyz|Hyz|Hyz];
    try discriminate; intros H1 H2.
  - rewrite Hxy, Hyz, N.compare_refl. now apply (IH b c).
  - rewrite Hxy. now apply N.compare_lt_iff in Hyz as ->.
  - rewrite <- Hyz. now apply N.compare_lt_iff in Hxy as ->.
  - assert (H : (N_of_ascii x < N_of_ascii z)%N) by lia.
    now apply N.compare_lt_iff in H as ->.
Qed.

Lemma string_ltb_irrefl (a : string) : String.ltb a a = false.
Proof. unfold String.ltb. now rewrite string_compare_refl. Qed.

Lemma string_ltb_asym (a b : string) :
  String.ltb a b = true -> String.ltb b a = false.
Proof.
  unfold String.ltb. rewrite (String.compare_antisym b a).
  destruct (String.compare a b); simpl; congruence.
Qed.

Lemma string_ltb_trans (a b c : string) :
  String.ltb a b = true -> String.ltb b c = true -> String.ltb a c = true.
Proof.
  unfold String.ltb. intros H1 H2.
  rewrite (string_compare_lt_trans a b c); [reflexivity | |].
  - destruct (String.compare a b); congruence.
  - destruct (String.compare b c); congruence.
Qed.

Lemma string_ltb_total (a b : string) :
  String.ltb a b = false -> String.ltb b a = false -> a = b.
Proof.
  unfold String.ltb. rewrite (String.compare_antisym b a).
  destruct (String.compare a b) eqn:E; simpl; try discriminate.
  intros _ _. now apply String.compare_eq_iff.
Qed.

Lemma string_ltb_neq (a b : string) :
  String.ltb a b = true -> String.eqb a b = false.
Proof.
  intros H. apply String.eqb_neq. intros ->.
  rewrite string_ltb_irrefl in H. discriminate.
Qed.

Section MapOperations.
Context {B : Type}.

(** [m[key] = value] followed by a look-up, for [std::map<string, _>]. *)
Lemma lookup_map_assign (key : string) (value : B) (m : list (string * B))
    (k : string) :
  lookup k (map_assign String.ltb key value m)
  = if String.eqb key k then Some value else lookup k m.
Proof.
  induction m as [|[k0 w] m IH]; simpl; [reflexivity|].
  destruct (String.ltb key k0) eqn:E1; [reflexivity|].
  destruct (String.ltb k0 key) eqn:E2; simpl.
  - rewrite IH. apply string_ltb_neq in E2.
    destruct (String.eqb_spec k0 k) as [->|]; [|reflexivity].
    now rewrite String.eqb_sym, E2.
  - rewrite (string_ltb_total _ _ E1 E2).
    now destruct (String.eqb k0 k).
Qed.

(** The same for [std::unordered_map<string, _>]. *)
Lemma lookup_umap_assign (key : string) (value : B) (m : list (string * B))
    (k : string) :
  lookup k (umap_assign String.eqb key value m)
  = if String.eqb key k then Some value else lookup k m.
Proof.
  induction m as [|[k0 w] m IH]; simpl; [reflexivity|].
  destruct (String.eqb_spec k0 key) as [->|Hne]; simpl.
  - now destruct (String.eqb key k).
  - rewrite IH. destruct (String.eqb_spec k0 k) as [->|]; [|reflexivity].
    apply String.eqb_neq in Hne. now rewrite String.eqb_sym, Hne.
Qed.

Lemma map_assign_keys (key : string) (value : B) (m : list (string * B)) :
  StronglySorted (fun a b => String.ltb a b = true) (map fst m) ->
  StronglySorted (fun a b => String.ltb a b = true)
    (map fst (map_assign String.ltb key value m))
  /\ forall k, In k (map fst (map_assign String.ltb key value m))
               <-> k = key \/ In k (map fst m).
Proof.
  induction m as [|[k0 w] m IH]; simpl; intros Hs.
  - split; [constructor; constructor | intros k; intuition (subst; auto)].
  - apply StronglySorted_inv in Hs as [Hs Hall].
    destruct (IH Hs) as [IHs IHin]. pose proof Hall as Hall'.
    rewrite Forall_forall in Hall'.
    destruct (String.ltb key k0) eqn:E1; simpl.
    + split; [|intros k; intuition (subst; auto)].
      constructor; [now constructor|].
      constructor; [assumption|].
      apply Forall_forall. intros k Hk.
      exact (string_ltb_trans _ _ _ E1 (Hall' k Hk)).
    + destruct (String.ltb k0 key) eqn:E2; simpl.
      * split.
        -- constructor; [assumption|].
           apply Forall_forall. intros k Hk. apply IHin in Hk as [->|Hk];
             [assumption | now apply Hall'].
        -- intros k. rewrite IHin. intuition (subst; auto).
      * rewrite (string_ltb_total _ _ E1 E2). split.
        -- now constructor.
        -- intros k. intuition (subst; auto).
Qed.

Lemma umap_assign_keys (key : string) (value : B) (m : list (string * B)) :
  NoDup (map fst m) ->
  NoDup (map fst (umap_assign String.eqb key value m))
  /\ forall k, In k (map fst (umap_assign String.eqb key value m))
               <-> k = key \/ In k (map fst m).
Proof.
  induction m as [|[k0 w] m IH]; simpl; intros Hs.
  - split; [constructor; [intros [] | constructor]
           | intros k; intuition (subst; auto)].
  - inversion Hs as [|? ? Hk0 Hnd]; subst.
    destruct (IH Hnd) as [IHs IHin].
    destruct (String.eqb_spec k0 key) as [->|Hne]; simpl.
    + split; [assumption | intros k; intuition (subst; auto)].
    + split.
      * constructor; [|assumption]. rewrite IHin. intros [->|Hin]; auto.
      * intros k. rewrite IHin. intuition (subst; auto).
Qed.
End MapOperations.

Lemma find_member_app (key : string) (ms ms' : list (string * JsonVariant)) :
  find_member key (ms ++ ms')
  = match find_member key ms with
    | Some v => Some v
    | None => find_member key ms'
    end.
Proof.
  induction ms as [|[k v] ms IH]; simpl; [reflexivity|].
  now destruct (String.eqb k key).
Qed.

Section AssociativeMore.
Context `{JL : JsonLibrary} `{CC : CompositeCapability}.

Lemma map_store_string (mk : map_kind) (V : elem) (key : string)
    (value : denote_elem V) (m : list (string * denote_elem V)) :
  (forall k, lookup k (map_store mk (EPrim PString) V key value m)
             = if String.eqb key k then Some value else lookup k m)
  /\ (keys_shape mk (map fst m) ->
      keys_shape mk (map fst (map_store mk (EPrim PString) V key value m))).
Proof.
  destruct mk; simpl; split.
  - intros k. apply lookup_map_assign.
  - intros H. now apply map_assign_keys.
  - intros k. apply lookup_umap_assign.
  - intros H. now apply umap_assign_keys.
Qed.

Lemma add_pairs_string_keys (mk : map_kind) (p : prim)
    (ms : list (string * JsonVariant)) :
  forall acc : list (string * denote_prim p),
    keys_shape mk (map fst acc) ->
    exists m : list (string * denote_prim p),
      add_pairs mk (EPrim PString) (EPrim p) ms acc = Ok m
      /\ keys_shape mk (map fst m)
      /\ forall key,
           option_map Ok (lookup key m)
           = match find_member key (rev ms) with
             | Some node => Some (deserialized_value (EPrim p) node)
             | None => option_map Ok (lookup key acc)
             end.
Proof.
  induction ms as [|[k0 n0] ms IH]; intros acc Hacc.
  - exists acc. repeat split; assumption || reflexivity.
  - cbn [add_pairs deserialized_key bind].
    assert (Hv : exists v, deserialized_value (EPrim p) n0 = Ok v)
      by (destruct p; eexists; reflexivity).
    destruct Hv as [v0 Hv]. rewrite Hv. cbn [bind].
    destruct (map_store_string mk (EPrim p) k0 v0 acc) as [Hlook Hshape].
    destruct (IH _ (Hshape Hacc)) as (m & Hm & Hms & Hml).
    exists m. split; [exact Hm|]. split; [exact Hms|].
    intros key. rewrite Hml. cbn [rev]. rewrite find_member_app.
    destruct (find_member key (rev ms)); [reflexivity|].
    cbn [find_member]. rewrite Hlook.
    destruct (String.eqb k0 key); [now rewrite Hv | reflexivity].
Qed.

(** X11.  Reading a JSON object into a string-keyed map of primitives never
    fails and gives a map with one entry for each distinct member name, in
    key order for [std::map]; when a name occurs more than once the last
    member wins. *)
Theorem X11_map_last_member_wins (mk : map_kind) (p : prim)
    (input : StdString) (ms : list (string * JsonVariant)) :
  deserializeJson (c_str input) = ParseOk (JObject ms) ->
  exists m : list (string * denote_prim p),
    Deserialize (TAssoc mk (EPrim PString) (EPrim p)) input = Ok m
    /\ keys_shape mk (map fst m)
    /\ forall key,
         option_map Ok (lookup key m)
         = option_map (deserialized_value (EPrim p))
             (find_member key (rev ms)).
Proof.
  intros Hparse. cbn [Deserialize].
  unfold deserialize_associative_container. rewrite Hparse.
  cbn [is_JsonObject negb as_JsonObject].
  assert (Hnil : keys_shape mk (map fst (@nil (string * denote_prim p))))
    by (destruct mk; constructor).
  destruct (add_pairs_string_keys mk p ms [] Hnil) as (m & Hm & Hs & Hl).
  exists m. split; [exact Hm|]. split; [exact Hs|].
  intros key. rewrite Hl. now destruct (find_member key (rev ms)).
Qed.

Lemma add_pairs_failure (mk : map_kind) (K V : elem)
    (pre post : list (string * JsonVariant)) (name : string)
    (node : JsonVariant) (ex : exception) :
  Forall (fun kv => (exists key, deserialized_key K (fst kv) = Ok key)
                    /\ exists v, deserialized_value V (snd kv) = Ok v) pre ->
  deserialized_key K name = Throw ex
  \/ ((exists key, deserialized_key K name = Ok key)
      /\ deserialized_value V node = Throw ex) ->
  forall acc,
    add_pairs mk K V (pre ++ (name, node) :: post) acc = Throw ex.
Proof.
  intros Hpre Hbad.
  induction Hpre as [|[k n] pre [[key Hk] [v Hv]] _ IH]; intros acc.
  - cbn [app add_pairs].
    destruct Hbad as [Hkey|[[key Hkey] Hval]]; rewrite Hkey; cbn [bind];
      [reflexivity | now rewrite Hval].
  - cbn [app add_pairs]. simpl in Hk, Hv. rewrite Hk, Hv. cbn [bind].
    apply IH.
Qed.

(** X12.  When the name of a member cannot be converted to the key type, or
    its value cannot be read, the whole map read throws that exception: the
    pairs stored before it are dropped and the members after it are not
    looked at.  A member name that is not a number makes an
    integer-keyed map fail this way. *)
Theorem X12_member_failure_propagates (mk : map_kind) (K V : elem)
    (input : StdString) (pre post : list (string * JsonVariant))
    (name : string) (node : JsonVariant) (ex : exception) :
  deserializeJson (c_str input)
    = ParseOk (JObject (pre ++ (name, node) :: post)) ->
  Forall (fun kv => (exists key, deserialized_key K (fst kv) = Ok key)
                    /\ exists v, deserialized_value V (snd kv) = Ok v) pre ->
  deserialized_key K name = Throw ex
  \/ ((exists key, deserialized_key K name = Ok key)
      /\ deserialized_value V node = Throw ex) ->
  Deserialize (TAssoc mk K V) input = Throw ex.
Proof.
  intros Hparse Hpre Hbad. cbn [Deserialize].
  unfold deserialize_associative_container. rewrite Hparse.
  cbn [is_JsonObject negb as_JsonObject].
  now apply add_pairs_failure.
Qed.
End AssociativeMore.

Lemma X11_witness :
  let input :=
    "{" ++ JsonText.write_string "b" ++ ":1,"
        ++ JsonText.write_string "a" ++ ":2,"
        ++ JsonText.write_string "b" ++ ":3}" in
  deserializeJson (JsonLibrary := JsonText.library) (c_str input)
    = ParseOk (JObject [("b", JInt 1); ("a", JInt 2); ("b", JInt 3)])
  /\ Deserialize (JL := JsonText.library) (CC := Point.capability)
       (TAssoc Map (EPrim PString) (EPrim (PIntegral Signed W32))) input
     = Ok [("a", 2); ("b", 3)].
Proof.
  intros input.
  assert (H1 : deserializeJson (JsonLibrary := JsonText.library) (c_str input)
               = ParseOk (JObject [("b", JInt 1); ("a", JInt 2); ("b", JInt 3)]))
    by (vm_compute; reflexivity).
  split; [exact H1|].
  destruct (X11_map_last_member_wins (JL := JsonText.library)
              (CC := Point.capability) Map (PIntegral Signed W32) input _ H1)
    as (m & Hm & _).
  rewrite Hm. vm_compute in Hm. exact (eq_sym Hm).
Defined.

Lemma X12_witness :
  let input :=
    "{" ++ JsonText.write_string "1" ++ ":10,"
        ++ JsonText.write_string "x" ++ ":20}" in
  Deserialize (JL := JsonText.library) (CC := Point.capability)
    (TAssoc Map (EPrim (PIntegral Signed W32)) (EPrim (PIntegral Signed W32)))
    input
  = Throw (invalid_argument "Invalid integer value: x").
Proof.
  intros input.
  apply (X12_member_failure_propagates (JL := JsonText.library)
           (CC := Point.capability) Map (EPrim (PIntegral Signed W32))
           (EPrim (PIntegral Signed W32)) input
           [("1", JInt 10)] [] "x" (JInt 20)).
  - vm_compute. reflexivity.
  - constructor; [|constructor]. split; [exists 1 | exists 10]; reflexivity.
  - left. reflexivity.
Defined.

Lemma set_member_last (key : string) (v : JsonVariant)
    (ms : list (string * JsonVariant)) :
  ~ In key (map fst ms) -> set_member key v ms = (ms ++ [(key, v)])%list.
Proof.
  induction ms as [|[k w] ms IH]; simpl; intros Hn; [reflexivity|].
  destruct (String.eqb_spec k key) as [->|_]; [tauto|].
  rewrite IH by tauto. reflexivity.
Qed.

Section MapAppend.
Context {B : Type}.

Lemma map_assign_last (key : string) (value : B) (m : list (string * B)) :
  Forall (fun k => String.ltb k key = true) (map fst m) ->
  map_assign String.ltb key value m = (m ++ [(key, value)])%list.
Proof.
  induction m as [|[k w] m IH]; simpl; intros Hall; [reflexivity|].
  inversion Hall as [|? ? Hk Hrest]; subst.
  rewrite (string_ltb_asym _ _ Hk), Hk, (IH Hrest). reflexivity.
Qed.

Lemma umap_assign_last (key : string) (value : B) (m : list (string * B)) :
  ~ In key (map fst m) ->
  umap_assign String.eqb key value m = (m ++ [(key, value)])%list.
Proof.
  induction m as [|[k w] m IH]; simpl; intros Hn; [reflexivity|].
  destruct (String.eqb_spec k key) as [->|_]; [tauto|].
  rewrite IH by tauto. reflexivity.
Qed.
End MapAppend.

Lemma sorted_keys_NoDup (keys : list string) :
  StronglySorted (fun a b => String.ltb a b = true) keys -> NoDup keys.
Proof.
  induction 1 as [|a l _ IH Hall]; constructor; [|assumption].
  intros Hin. rewrite Forall_forall in Hall.
  pose proof (Hall a Hin) as H. rewrite string_ltb_irrefl in H. discriminate.
Qed.

Lemma keys_shape_NoDup (mk : map_kind) (keys : list string) :
  keys_shape mk keys -> NoDup keys.
Proof. destruct mk; simpl; [apply sorted_keys_NoDup | trivial]. Qed.

Section AssociativeRoundTripMore.
Context `{JL : JsonLibrary} `{CC : CompositeCapability}.

Lemma map_store_last (mk : map_kind) (V : elem) (key : string)
    (value : denote_elem V) (acc rest : list (string * denote_elem V)) :
  keys_shape mk (map fst (acc ++ (key, value) :: rest)) ->
  map_store mk (EPrim PString) V key value acc
  = (acc ++ [(key, value)])%list.
Proof.
  rewrite map_app. cbn [map fst]. destruct mk; simpl; intros H.
  - apply map_assign_last. exact (StronglySorted_app_head _ _ _ _ H).
  - apply umap_assign_last. now apply NoDup_remove_2 in H; intros Hin;
      apply H, in_or_app; left.
Qed.

Lemma written_object (V : elem) (m : list (string * denote_elem V)) :
  forall obj : list (string * JsonVariant),
    NoDup (map fst obj ++ map fst m) ->
    Forall (fun pair => c_str (fst pair) = fst pair) m ->
    fold_left
      (fun obj pair =>
         set_member (c_str (Serialize_elem (EPrim PString) (fst pair)))
           (stored_value V (snd pair)) obj)
      m obj
    = (obj ++ written_members V m)%list.
Proof.
  induction m as [|[k v] m IH]; intros obj Hnd Hnul.
  - simpl. now rewrite app_nil_r.
  - inversion Hnul as [|? ? Hk Hrest]; subst. simpl in Hk.
    cbn [fold_left fst snd Serialize_elem convert_primitive_to_string].
    rewrite Hk. cbn [map fst] in Hnd.
    rewrite set_member_last.
    + rewrite IH; [| |exact Hrest].
      * rewrite <- app_assoc. reflexivity.
      * rewrite map_app. cbn [map fst]. rewrite <- app_assoc. exact Hnd.
    + apply NoDup_remove_2 in Hnd. intros Hin. apply Hnd, in_or_app.
      now left.
Qed.

Lemma add_pairs_written (mk : map_kind) (V : elem)
    (m : list (string * denote_elem V)) :
  forall acc : list (string * denote_elem V),
    keys_shape mk (map fst (acc ++ m)) ->
    Forall (pair_survives V) m ->
    add_pairs mk (EPrim PString) V (written_members V m) acc
    = Ok (acc ++ m)%list.
Proof.
  induction m as [|[k v] m IH]; intros acc Hshape Hs.
  - simpl. now rewrite app_nil_r.
  - inversion Hs as [|? ? [_ Hv] Hrest]; subst. simpl in Hv.
    cbn [written_members map add_pairs fst snd deserialized_key bind].
    rewrite Hv. cbn [bind].
    rewrite (map_store_last mk V k v acc m Hshape).
    fold (written_members V m).
    rewrite IH; [| |exact Hrest].
    + now rewrite <- app_assoc.
    + now rewrite <- app_assoc.
Qed.

(** The list of pairs read back from the written object is the list written
    (for the unordered map: in the order the list model takes). *)
Lemma pairs_written_read_back (mk : map_kind) (V : elem)
    (m : list (string * denote_elem V)) :
  let M := TAssoc mk (EPrim PString) V in
  keys_shape mk (map fst m) ->
  Forall (pair_survives V) m ->
  deserializeJson (c_str (serializeJson (JObject (written_members V m))))
    = ParseOk (JObject (written_members V m)) ->
  Deserialize M (Serialize M m) = Ok m.
Proof.
  intros M Hshape Hs Hread. subst M.
  cbn [Deserialize Serialize].
  unfold deserialize_associative_container, serialize_associative_container.
  rewrite (written_object V m []).
  - cbn [app]. rewrite c_str_idempotent, Hread.
    cbn [is_JsonObject negb as_JsonObject].
    exact (add_pairs_written mk V m [] Hshape Hs).
  - exact (keys_shape_NoDup _ _ Hshape).
  - apply Forall_impl with (2 := Hs). now intros pair [Hk _].
Qed.

(** X13.  A string-keyed map does come back from its serialized form when
    no key holds a NUL, the node stored for each value reads back as that
    value, and the library reads back the object it wrote: the map read has
    the same value under every key and no other key.  For [std::map], whose
    order is the order of its keys, it is the same list of pairs; for
    [std::unordered_map] nothing is said of the order. *)
Theorem X13_string_keyed_map_round_trip (mk : map_kind) (V : elem)
    (m : list (string * denote_elem V)) :
  let M := TAssoc mk (EPrim PString) V in
  keys_shape mk (map fst m) ->
  Forall (pair_survives V) m ->
  deserializeJson (c_str (serializeJson (JObject (written_members V m))))
    = ParseOk (JObject (written_members V m)) ->
  exists m',
    Deserialize M (Serialize M m) = Ok m'
    /\ keys_shape mk (map fst m')
    /\ (forall key, lookup key m' = lookup key m)
    /\ (mk = Map -> m' = m).
Proof.
  intros M Hshape Hs Hread. exists m.
  split; [exact (pairs_written_read_back mk V m Hshape Hs Hread)|].
  split; [exact Hshape|]. split; reflexivity.
Qed.
End AssociativeRoundTripMore.

Lemma X13_witness :
  let M := TAssoc Map (EPrim PString) (EPrim (PIntegral Signed W32)) in
  let m := [("a", -2); ("b", 3)] in
  Deserialize (JL := JsonText.library) (CC := Point.capability) M
    (Serialize (JL := JsonText.library) (CC := Point.capability) M m)
  = Ok m.
Proof.
  intros M m.
  destruct (X13_string_keyed_map_round_trip (JL := JsonText.library)
              (CC := Point.capability) Map (EPrim (PIntegral Signed W32)) m)
    as (m' & Hm & _ & _ & Hsame).
  - repeat constructor.
  - repeat constructor.
  - vm_compute. reflexivity.
  - subst M. rewrite Hm. f_equal. exact (Hsame eq_refl).
Defined.

(* ================================================================== *)
(** ** More on the validators *)

Lemma find_first_not_of_split (set s : string) (n : nat) :
  find_first_not_of set s = Some n ->
  exists pre c r,
    s = (pre ++ String c r)%string /\ all_in set pre = true
    /\ mem_char c set = false /\ erase_front n s = String c r.
Proof.
  revert n. induction s as [|a s IH]; simpl; intros n H; [discriminate|].
  destruct (mem_char a set) eqn:E.
  - destruct (find_first_not_of set s) as [m|]; simpl in H; [|discriminate].
    inversion H; subst.
    destruct (IH m eq_refl) as (pre & c & r & -> & Hpre & Hc & Her).
    exists (String a pre), c, r. simpl. rewrite E, Hpre. auto.
  - inversion H; subst. exists EmptyString, a, s. simpl. auto.
Qed.

Lemma find_last_not_of_split (set s : string) (e : nat) :
  find_last_not_of set s = Some e ->
  exists r c post,
    s = (r ++ String c post)%string /\ mem_char c set = false
    /\ all_in set post = true
    /\ erase_from (e + 1) s = (r ++ String c EmptyString)%string.
Proof.
  revert e. induction s as [|a s IH]; simpl; intros e H; [discriminate|].
  destruct (find_last_not_of set s) as [i|] eqn:L.
  - inversion H; subst.
    destruct (IH i eq_refl) as (r & c & post & Hs & Hc & Hpost & Her).
    exists (String a r), c, post. simpl. rewrite Her, <- Hs. auto.
  - destruct (mem_char a set) eqn:E; [discriminate|].
    inversion H; subst. exists EmptyString, a, s. simpl.
    apply find_last_not_of_None in L. auto.
Qed.

(** X14.  The two trimming steps of [ValidateNotBlank] remove a run of
    spaces, tabs, newlines and carriage returns from each end of the value
    and nothing else: the value is the trimmed text between two such runs,
    and the trimmed text, when it is not empty, begins and ends with a
    character that is none of the four.  It is empty exactly when the value
    holds nothing but those four characters. *)
Theorem X14_trim_strips_both_ends (s : string) :
  (exists pre post,
     s = (pre ++ trim s ++ post)%string
     /\ all_in whitespace pre = true /\ all_in whitespace post = true)
  /\ (trim s = EmptyString
      \/ (exists c r, trim s = String c r /\ mem_char c whitespace = false)
         /\ (exists r c, trim s = (r ++ String c EmptyString)%string
                         /\ mem_char c whitespace = false))
  /\ (trim s = EmptyString <-> all_in whitespace s = true).
Proof.
  split; [|split; [|apply trim_empty_iff]].
  - unfold trim.
    destruct (find_first_not_of whitespace s) as [start|] eqn:E.
    + destruct (find_first_not_of_split _ _ _ E)
        as (pre & c & r & Hs & Hpre & Hc & Her).
      rewrite Her. cbn [empty negb].
      destruct (find_last_not_of whitespace (String c r)) as [e|] eqn:L.
      * destruct (find_last_not_of_split _ _ _ L)
          as (r' & c' & post & Hs' & Hc' & Hpost & Her').
        rewrite Her'. exists pre, post. repeat split; try assumption.
        rewrite Hs, Hs', !append_assoc. reflexivity.
      * apply find_last_not_of_None in L. cbn [all_in] in L.
        rewrite Hc in L. discriminate.
    + exists s, EmptyString. apply find_first_not_of_None in E.
      cbn [empty negb append]. now rewrite append_empty_r.
  - unfold trim.
    destruct (find_first_not_of whitespace s) as [start|] eqn:E;
      [|left; reflexivity].
    destruct (find_first_not_of_split _ _ _ E)
      as (pre & c & r & Hs & Hpre & Hc & Her).
    rewrite Her. cbn [empty negb].
    destruct (find_last_not_of whitespace (String c r)) as [e|] eqn:L;
      [|left; reflexivity].
    destruct (find_last_not_of_split _ _ _ L)
      as (r' & c' & post & Hs' & Hc' & Hpost & Her').
    rewrite Her'. right. split; [|eauto].
    destruct r' as [|x r']; simpl in Hs' |- *.
    + eauto.
    + inversion Hs'; subst. eauto.
Qed.

(** X15.  The three validators are ordered by strength, and the log plays
    no part in the verdict: a field that passes [ValidateNotBlank] passes
    [ValidateNotEmpty], a field that passes [ValidateNotEmpty] passes
    [ValidateNotNull], and each verdict is the same whatever the log given.
    A string of blanks is where the first two differ: it passes
    [ValidateNotEmpty] whenever it is not the empty string. *)
Theorem X15_validator_strength (doc : JsonVariant) (fieldName : string)
    (log log' : StdString) :
  (forall left,
     ValidateNotBlank doc fieldName log = Some (true, left) ->
     fst (ValidateNotEmpty doc fieldName log') = true)
  /\ (fst (ValidateNotEmpty doc fieldName log) = true ->
      fst (ValidateNotNull doc fieldName log') = true)
  /\ fst (ValidateNotNull doc fieldName log)
     = fst (ValidateNotNull doc fieldName log')
  /\ fst (ValidateNotEmpty doc fieldName log)
     = fst (ValidateNotEmpty doc fieldName log')
  /\ option_map fst (ValidateNotBlank doc fieldName log)
     = option_map fst (ValidateNotBlank doc fieldName log')
  /\ (forall value,
        member doc fieldName = JString value -> value <> EmptyString ->
        fst (ValidateNotEmpty doc fieldName log) = true).
Proof.
  rewrite !ValidateNotNull_spec, !ValidateNotBlank_spec.
  pose proof (ValidateNotEmpty_spec doc fieldName log) as E.
  pose proof (ValidateNotEmpty_spec doc fieldName log') as E'.
  cbv zeta in E, E'. rewrite E, E'. clear E E'.
  destruct (member doc fieldName) as [|b|z|s|l|ms]; cbn [isNull];
    repeat split; try reflexivity; try discriminate; try congruence.
  all: repeat match goal with
    | |- forall _, _ => intro
    | H : JString _ = JString _ |- _ => inversion H; subst; clear H
    | |- context [match ?x with EmptyString => _ | String _ _ => _ end] =>
        destruct x
    | |- context [match ?x with [] => _ | _ :: _ => _ end] => destruct x
    | |- context [if all_in ?a ?b then _ else _] => destruct (all_in a b)
    end; cbn in *; try reflexivity; try discriminate; try congruence.
Qed.

Lemma append_empty_iff (a b : string) :
  (a ++ b)%string = EmptyString <-> a = EmptyString /\ b = EmptyString.
Proof.
  destruct a; simpl; split; try tauto; try discriminate.
  intros [H _]. discriminate.
Qed.

Lemma failed_log_not_empty (log message : string) (c : ascii) :
  (log ++ (if empty log then EmptyString else separator)
       ++ String c message)%string
  <> EmptyString.
Proof.
  intros H. apply append_empty_iff in H as [_ H].
  apply append_empty_iff in H as [_ H]. discriminate.
Qed.

(** X16.  The log tells whether anything failed: after a validator call
    the log is empty exactly when the log given was empty and the call
    returned true.  A caller that threads one log through its checks can
    test the log for emptiness instead of keeping the verdicts. *)
Theorem X16_log_empty_iff_passed (doc : JsonVariant) (fieldName : string)
    (log : StdString) :
  (snd (ValidateNotNull doc fieldName log) = EmptyString
   <-> log = EmptyString /\ fst (ValidateNotNull doc fieldName log) = true)
  /\ (snd (ValidateNotEmpty doc fieldName log) = EmptyString
      <-> log = EmptyString /\ fst (ValidateNotEmpty doc fieldName log) = true)
  /\ (forall verdict left,
        ValidateNotBlank doc fieldName log = Some (verdict, left) ->
        (left = EmptyString <-> log = EmptyString /\ verdict = true)).
Proof.
  assert (Hfail : forall (c : ascii) message,
            (log ++ (if empty log then EmptyString else separator)
               ++ String c message)%string = EmptyString
            <-> log = EmptyString /\ false = true).
  { intros c message. split; [|intros [_ H]; discriminate].
    intros H. now apply failed_log_not_empty in H. }
  rewrite !ValidateNotNull_spec, !ValidateNotBlank_spec.
  pose proof (ValidateNotEmpty_spec doc fieldName log) as E.
  cbv zeta in E. rewrite E. clear E.
  unfold NotNull_message, NotEmpty_missing_message, NotEmpty_string_message,
    NotEmpty_array_message, NotEmpty_map_message, NotBlank_missing_message,
    NotBlank_blank_message.
  split; [|split]; [| |intros verdict left Hcall];
    destruct (member doc fieldName) as [|b|z|s|l|ms]; cbn [isNull] in *;
    repeat match goal with
    | |- context [match ?x with EmptyString => _ | String _ _ => _ end] =>
        destruct x
    | |- context [match ?x with [] => _ | _ :: _ => _ end] => destruct x
    | H : context [if all_in ?a ?b then _ else _] |- _ =>
        destruct (all_in a b)
    end;
    try discriminate Hcall;
    try (inversion Hcall; subst verdict left; clear Hcall);
    cbn [fst snd];
    first [apply Hfail | intuition reflexivity].
Qed.

(* ================================================================== *)
(** ** Sequences of any element type *)

Section SequenceOfAny.
Context `{JL : JsonLibrary} `{CC : CompositeCapability}.

Lemma read_all_written (e : elem) (c : list (denote_elem e)) :
  Forall (element_survives e) c ->
  read_all e (map (added_element e) c) = Ok c.
Proof.
  induction 1 as [|x c Hx _ IH]; [reflexivity|].
  cbn [map read_all]. unfold element_survives in Hx.
  rewrite Hx. cbn [bind]. rewrite IH. reflexivity.
Qed.

(** X17.  A vector, list, deque or array of any element type, composite
    objects included, comes back from its serialized form element by
    element and in order, when each element reads back from the node
    written for it and the library reads back the array it wrote.  A
    composite element is written by serializing it and parsing that text
    into the array, and read by serializing its node and handing the text
    to the type's own reader. *)
Theorem X17_ordered_sequence_round_trip (k : seq_kind) (e : elem)
    (c : list (denote_elem e)) :
  keeps_order k (List.length c) ->
  Forall (element_survives e) c ->
  deserializeJson (c_str (serializeJson (JArray (map (added_element e) c))))
    = ParseOk (JArray (map (added_element e) c)) ->
  Deserialize (TSeq k e) (Serialize (TSeq k e) c) = Ok c.
Proof.
  intros Hk Hs Hread.
  rewrite (ordered_container_read_in_order k e _ (map (added_element e) c)).
  - now apply read_all_written.
  - cbn [Serialize]. unfold serialize_sequential_container.
    now rewrite c_str_idempotent.
  - now rewrite length_map.
Qed.
End SequenceOfAny.

Lemma X17_witness :
  let T := TSeq (Array 2) EComposite in
  let c := [(1, -2); (3, 4)] in
  Deserialize (JL := JsonText.library) (CC := Point.capability) T
    (Serialize (JL := JsonText.library) (CC := Point.capability) T c)
  = Ok c.
Proof.
  intros T c.
  apply (X17_ordered_sequence_round_trip (JL := JsonText.library)
           (CC := Point.capability) (Array 2) EComposite c).
  - reflexivity.
  - repeat constructor.
  - vm_compute. reflexivity.
Defined.
